(** * FirstMCP: a streamable-HTTP MCP server (src/index.ts) and its
    personal-notes feature (src/text.ts)

  The development embeds the session handling of [src/index.ts] (the
  [transports] registry, the POST/GET/DELETE handlers, the transport
  callbacks, [startServer] and the SIGINT handler) and the notes file
  operations of [src/text.ts] as executable definitions, and proves the
  properties the specification states about them. *)

From stdpp Require Import base strings list option gmap pretty sorting.
From Stdlib Require Import ZArith NArith Lia Ascii.

Local Open Scope string_scope.
Local Open Scope list_scope.
Local Open Scope nat_scope.

(** ** JavaScript values the code relies on *)

Module Js.

(** Truthiness of a [string | undefined] value: [undefined] and the empty
    string are falsy, every other string is truthy. *)
Definition truthy (v : option string) : bool :=
  match v with
  | None => false
  | Some s => negb (String.eqb s "")
  end.

(** A JS string as its sequence of UTF-16 code units. *)
Definition ustring := list N.

Definition lit (s : string) : ustring :=
  map N_of_ascii (String.list_ascii_of_string s).

(** WhiteSpace and LineTerminator code points of ECMAScript, the ones
    [String.prototype.trim] strips. *)
Definition isWhiteSpace (c : N) : bool :=
  ((c =? 9) || (c =? 10) || (c =? 11) || (c =? 12) || (c =? 13) ||
   (c =? 32) || (c =? 160) || (c =? 0x1680) ||
   ((0x2000 <=? c) && (c <=? 0x200A)) ||
   (c =? 0x2028) || (c =? 0x2029) || (c =? 0x202F) || (c =? 0x205F) ||
   (c =? 0x3000) || (c =? 0xFEFF))%N.

Fixpoint trimStart (s : ustring) : ustring :=
  match s with
  | [] => []
  | c :: s' => if isWhiteSpace c then trimStart s' else s
  end.

Definition trimEnd (s : ustring) : ustring := rev (trimStart (rev s)).

Definition trim (s : ustring) : ustring := trimEnd (trimStart s).

(** [s.endsWith('\n')] *)
Definition endsWithNewline (s : ustring) : bool :=
  match last s with
  | Some c => (c =? 10)%N
  | None => false
  end.

(** [s.split(sep)] for a separator of one character: the pieces between
    the occurrences of [sep], empty pieces included. *)
Fixpoint split (sep : ascii) (s : string) : list string :=
  match s with
  | EmptyString => [""]
  | String c s' =>
      if Ascii.eqb c sep then "" :: split sep s'
      else match split sep s' with
           | piece :: pieces => String c piece :: pieces
           | [] => [String c ""]
           end
  end.

(** A surrogate code unit: the first half of a pair, or the second. *)
Definition isLeadSurrogate (c : N) : bool := ((0xD800 <=? c) && (c <=? 0xDBFF))%N.

Definition isTrailSurrogate (c : N) : bool := ((0xDC00 <=? c) && (c <=? 0xDFFF))%N.

Definition isSurrogate (c : N) : bool := isLeadSurrogate c || isTrailSurrogate c.

(** [s.toWellFormed()]: every surrogate that is not part of a pair becomes
    U+FFFD. It is what is left of a string that went through the ['utf8']
    encoding: the encoder writes U+FFFD for a lone surrogate, and decoding
    gives the pairs and all other code units back. *)
Fixpoint toWellFormed (s : ustring) : ustring :=
  match s with
  | [] => []
  | c :: s' =>
      if isLeadSurrogate c then
        match s' with
        | d :: s'' =>
            if isTrailSurrogate d then c :: d :: toWellFormed s''
            else 0xFFFD%N :: toWellFormed s'
        | [] => [0xFFFD%N]
        end
      else if isTrailSurrogate c then 0xFFFD%N :: toWellFormed s'
      else c :: toWellFormed s'
  end.

(** The names of the properties a plain object ([{}]) inherits from
    [Object.prototype]. Each of them holds a function, and [__proto__] the
    prototype object itself, so a read of any of them is truthy. *)
Definition Object_prototype : list string :=
  ["constructor"; "__defineGetter__"; "__defineSetter__"; "hasOwnProperty";
   "__lookupGetter__"; "__lookupSetter__"; "isPrototypeOf";
   "propertyIsEnumerable"; "toString"; "valueOf"; "__proto__";
   "toLocaleString"].

Definition inherits (key : string) : bool := bool_decide (key ∈ Object_prototype).

(** The number a string of decimal digits stands for. *)
Fixpoint decimal (s : string) (acc : N) : option N :=
  match s with
  | EmptyString => Some acc
  | String c s' =>
      let d := N_of_ascii c in
      if ((48 <=? d) && (d <=? 57))%N then decimal s' (10 * acc + (d - 48))%N
      else None
  end.

(** An array index: a property key that is the canonical decimal form (no
    sign, no leading zero) of an integer below 2^32 - 1. *)
Definition array_index (key : string) : option N :=
  match key with
  | EmptyString => None
  | String c rest =>
      if Ascii.eqb c "0" && negb (String.eqb rest "") then None
      else n ← decimal key 0; if (n <? 4294967295)%N then Some n else None
  end.

(** Array indices compared by the numbers they stand for. *)
Definition index_le (k1 k2 : string) : Prop :=
  (default 0 (array_index k1) ≤ default 0 (array_index k2))%N.

#[global] Instance index_le_dec k1 k2 : Decision (index_le k1 k2).
Proof. unfold index_le. apply _. Defined.

(** The order in which the own string keys of an ordinary object are
    enumerated ([for ... in], [Object.keys]): the array indices in ascending
    numeric order, then the other keys in the order of their creation.
    [created] is the keys in the order of their creation. *)
Definition ownKeys (created : list string) : list string :=
  merge_sort index_le (filter (λ k, is_Some (array_index k)) created)
  ++ filter (λ k, ¬ is_Some (array_index k)) created.

End Js.

(** ** src/text.ts: the notes file *)

Module Notes.
Import Js.

Definition newline : ustring := [10%N].

(** ['...'.join('\n')] of the three default notes. *)
Definition DEFAULT_NOTES : ustring :=
  lit "Bevasarolni tejet." ++ newline ++
  lit "Megszerelni a biciklit." ++ newline ++
  lit "MCP szervert programozni.".

(** The notes file as the [fs] calls of this module find it: its text,
    decoded as ['utf8'] ([None] when there is no file at the path), whether
    [readFile] may read it, and whether [writeFile] may write it, creating
    it when it is missing. *)
Record file := {
  stored : option ustring;
  readable : bool;
  writable : bool
}.

(** [readFile(notesFilePath, 'utf8')]: the text, or [None] when the promise
    rejects. *)
Definition readFile (f : file) : option ustring :=
  if readable f then stored f else None.

(** [writeFile(notesFilePath, text, 'utf8')]: the file afterwards, or [None]
    when the promise rejects, which leaves the file as it was. *)
Definition writeFile (text : ustring) (f : file) : option file :=
  if writable f
  then Some {| stored := Some (toWellFormed text);
               readable := readable f; writable := writable f |}
  else None.

(** [ensureNotesFile]: the file afterwards, or [None] when the promise
    rejects (the [writeFile] of the [catch] block failed). [mkdir] is applied
    to the directory of the module itself and leaves the file alone. *)
Definition ensureNotesFile (f : file) : option file :=
  match readFile f with
  | Some _ => Some f
  | None => writeFile (DEFAULT_NOTES ++ newline) f
  end.

(** [readNotes]: the file afterwards and the text returned, [None] when the
    promise rejects. *)
Definition readNotes (f : file) : file * option ustring :=
  match ensureNotesFile f with
  | None => (f, None)
  | Some f1 => (f1, readFile f1)
  end.

(** [appendNote]: the file afterwards and whether the promise is
    fulfilled. *)
Definition appendNote (text : ustring) (f : file) : file * bool :=
  match ensureNotesFile f with
  | None => (f, false)
  | Some f1 =>
      match readFile f1 with
      | None => (f1, false)
      | Some existing =>
          let trimmed := trim text in
          if bool_decide (trimmed = []) then (f1, true)
          else
            let separator :=
              if (0 <? length existing)%nat && negb (endsWithNewline existing)
              then newline else [] in
            match writeFile (existing ++ separator ++ trimmed ++ newline) f1 with
            | Some f2 => (f2, true)
            | None => (f1, false)
            end
      end
  end.

Record TextContent := { c_type : string; c_text : ustring }.
Record CallToolResult := { content : list TextContent }.

(** [z.string().min(1)]: the input schema of [add_note]. *)
Definition add_note_schema (text : ustring) : bool := (1 <=? length text)%nat.

(** The callback registered for the [add_note] tool: the file afterwards
    and the result, [None] when the promise rejects. *)
Definition add_note (text : ustring) (f : file) : file * option CallToolResult :=
  let '(f', fulfilled) := appendNote text f in
  (f',
   if fulfilled
   then Some {| content :=
          [ {| c_type := "text";
               c_text := lit "Jegyzet hozzaadva: " ++ [34%N] ++ trim text ++ [34%N] |} ] |}
   else None).

Definition NOTES_URI : ustring := lit "notes://main-notes.txt".

Record ResourceContent := { r_uri : ustring; r_text : ustring }.

(** The callback registered for the [main-notes-resource] resource: the
    file afterwards and the [contents] it returns, [None] when the promise
    rejects. *)
Definition main_notes_resource (f : file) : file * option (list ResourceContent) :=
  let '(f1, notes) := readNotes f in
  (f1, text ← notes; Some [ {| r_uri := NOTES_URI; r_text := text |} ]).

(** [appendNote] called once per text, in order, each call awaited before
    the next (what a run of [add_note] calls does to the file): the file
    afterwards and whether every call was fulfilled. *)
Fixpoint appendNotes (texts : list ustring) (f : file) : file * bool :=
  match texts with
  | [] => (f, true)
  | text :: texts =>
      let '(f', fulfilled) := appendNote text f in
      let '(f'', rest) := appendNotes texts f' in
      (f'', fulfilled && rest)
  end.

End Notes.

(** ** The resumable event store

  [src/index.ts] imports [InMemoryEventStore] from
  [./inMemoryEventStore.js] and hands one fresh instance to every
  transport; the module itself is not among the sources. *)

Module EventStore.

(** Modelled from the spec: an entry of the Event Log of the missing
    [inMemoryEventStore] module, a "(cursor, payload)" pair with an opaque
    payload. *)
Record event := { ev_cursor : nat; ev_payload : string }.

(** Modelled from the spec: the Event Log of the missing
    [inMemoryEventStore] module, "an append-only, per-stream ordered log of
    opaque messages, each assigned a monotonically increasing cursor";
    here a map from stream id to the events of the stream, oldest
    first. *)
Abbreviation t := (gmap string (list event)) (only parsing).

(** Modelled from the spec: "a stream that received events with cursors
    1..n" of the missing [inMemoryEventStore] module: the cursor of the
    i-th event of a stream is i. *)
Definition wf_log (log : list event) : Prop :=
  map ev_cursor log = seq 1 (length log).

(** Modelled from the spec: [append(streamId, payload) -> cursor] of the
    missing [inMemoryEventStore] module: "assigns the next cursor for that
    stream, stores the event, returns the cursor". *)
Definition append (streamId payload : string) (s : t) : t * nat :=
  let log := default [] (s !! streamId) in
  let c := S (length log) in
  (<[streamId := log ++ [ {| ev_cursor := c; ev_payload := payload |} ]]> s, c).

(** Modelled from the spec: the sink of a replay of the missing
    [inMemoryEventStore] module: the stored events still to be replayed,
    the events appended since the replay began ("appends arriving during
    replay are queued and delivered after the backlog is drained"), and
    what the sink has received so far, in order of receipt. *)
Record sink := {
  backlog : list event;
  queued : list event;
  delivered : list event
}.

(** Modelled from the spec: [replayFrom(streamId, cursor, sink)] of the
    missing [inMemoryEventStore] module: "delivers, in order, every stored
    event with cursor greater than the given value to sink, then keeps sink
    subscribed"; "replay for an unknown streamId fails with a NotFound
    condition" ([None]). *)
Definition replayFrom (streamId : string) (c : nat) (s : t) : option sink :=
  match s !! streamId with
  | None => None
  | Some log =>
      Some {| backlog := filter (λ e, c < ev_cursor e) log;
              queued := []; delivered := [] |}
  end.

(** Modelled from the spec: the cursor that the "last event" header of a
    stream reopen carries ("the last delivered cursor"), for the missing
    [inMemoryEventStore] module: the header value read as a decimal
    number. *)
Definition cursor_of (lastEventId : string) : option nat :=
  if String.eqb lastEventId "" then None
  else N.to_nat <$> Js.decimal lastEventId 0.

(** Modelled from the spec: the interleaving of the missing
    [inMemoryEventStore] module with its callers under the single-threaded
    cooperative scheduling of section 5: between two suspension points
    either some request appends an event to some stream, or the replaying
    flow pushes the next pending event to its sink. *)
Inductive action :=
| Append (streamId payload : string)
| Deliver.

(** Modelled from the spec: the missing [inMemoryEventStore] module while
    one replay is subscribed: the store, the stream being replayed and the
    sink of the replay. *)
Record replaying := {
  store : t;
  stream : string;
  out : sink
}.

(** Modelled from the spec: one scheduling step of the missing
    [inMemoryEventStore] module while a replay of [stream] is subscribed:
    an append stores the event and, on the replayed stream, queues it
    behind the backlog; a delivery hands over the oldest pending event,
    backlog first. *)
Definition step (a : action) (r : replaying) : replaying :=
  match a with
  | Append streamId payload =>
      let '(s', c) := append streamId payload (store r) in
      let e := {| ev_cursor := c; ev_payload := payload |} in
      {| store := s'; stream := stream r;
         out := if bool_decide (streamId = stream r)
                then {| backlog := backlog (out r);
                        queued := queued (out r) ++ [e];
                        delivered := delivered (out r) |}
                else out r |}
  | Deliver =>
      match backlog (out r), queued (out r) with
      | e :: b, q =>
          {| store := store r; stream := stream r;
             out := {| backlog := b; queued := q;
                       delivered := delivered (out r) ++ [e] |} |}
      | [], e :: q =>
          {| store := store r; stream := stream r;
             out := {| backlog := []; queued := q;
                       delivered := delivered (out r) ++ [e] |} |}
      | [], [] => r
      end
  end.

(** Modelled from the spec: a schedule of the missing [inMemoryEventStore]
    module, the steps taken one after the other. *)
Definition run (acts : list action) (r : replaying) : replaying :=
  foldl (λ r a, step a r) r acts.

(** Modelled from the spec: the events of the replayed stream as the store
    of the missing [inMemoryEventStore] module holds them now. *)
Definition log_of (r : replaying) : list event :=
  default [] (store r !! stream r).

(** Modelled from the spec: the events the sink of the missing
    [inMemoryEventStore] module has not received yet, backlog before
    queue. *)
Definition pending (r : replaying) : list event :=
  backlog (out r) ++ queued (out r).

(** Modelled from the spec: what a replay of the missing
    [inMemoryEventStore] module from cursor [k] over the initial [log] is to
    maintain while appends and deliveries interleave: cursors stay 1..n, the
    log only grows, and what was delivered followed by what is pending is the
    log from cursor [k + 1] on. *)
Record replay_inv (log : list event) (k : nat) (r : replaying) : Prop := {
  inv_wf : wf_log (log_of r);
  inv_grows : ∃ live, log_of r = log ++ live;
  inv_sink : delivered (out r) ++ pending r = drop k (log_of r)
}.

End EventStore.

(** ** src/index.ts: the session server *)

Module Server.
Import Js.

(** *** Console, requests and responses *)

Inductive Level := LOG | WARN | ERROR.

(** One call of [console.log], [console.warn] or [console.error] with its
    arguments. *)
Record LogLine := { level : Level; args : list string }.

(** The object literal both JSON bodies of [mcpPostHandler] are built
    from; [id] is [None] for [null]. *)
Record JsonRpcError := {
  jsonrpc : string;
  error_code : Z;
  error_message : string;
  id : option string
}.

Inductive Body :=
| Json (e : JsonRpcError)      (* res.json(...) *)
| Text (s : string).           (* res.send('...') *)

(** The Express response of one request: nothing written yet, written by
    the transport (the SDK) while it handled the request, or written by a
    handler of this file through [res.status(n).json/send]. *)
Inductive Response :=
| Unsent
| SentBySdk
| Sent (status : nat) (body : Body).

Definition headersSent (res : Response) : bool :=
  match res with Unsent => false | _ => true end.

Record Request := {
  mcp_session_id : option string;     (* req.headers['mcp-session-id'] *)
  last_event_id : option string;      (* req.headers['last-event-id'] *)
  req_body : string;                  (* req.body *)
  isInitializeRequest : bool;         (* isInitializeRequest(req.body) *)
  auth : option string                (* req.auth, an object when set *)
}.

(** *** Transports and the registry *)

(** A [StreamableHTTPServerTransport] object is identified by its
    allocation index. *)
Abbreviation handle := nat (only parsing).

(** What this file reads of a transport object: its [sessionId] property
    ([undefined] until the SDK has generated one), whether it has been
    closed, and the event store it was constructed with. *)
Record Transport := {
  sessionId : option string;
  isClosed : bool;
  eventStore : EventStore.t
}.

(** The module state. [transports] holds the own properties of the
    registry object and [keys] their names in the order of their creation,
    which is what [for ... in] goes by; what the object inherits from its
    prototype is in [Js.Object_prototype]. *)
Record State := {
  transports : gmap string handle;    (* const transports = {} *)
  keys : list string;                 (* own keys, oldest first *)
  heap : list Transport;              (* transport objects, by handle *)
  console : list LogLine              (* oldest first *)
}.

Definition init : State :=
  {| transports := ∅; keys := []; heap := []; console := [] |}.

Definition console_write (l : Level) (a : list string) (st : State) : State :=
  {| transports := transports st; keys := keys st; heap := heap st;
     console := console st ++ [ {| level := l; args := a |} ] |}.

Definition set_heap (hp : list Transport) (st : State) : State :=
  {| transports := transports st; keys := keys st; heap := hp;
     console := console st |}.

(** [transports[sessionId] = transport]: an own property is created, or
    the one that is there is overwritten in its place. (For the key
    [__proto__] alone the assignment would replace the prototype instead;
    the key assigned is the id the SDK generated with [randomUUID].) *)
Definition assign (sessionId : string) (transport : handle) (st : State) : State :=
  {| transports := <[sessionId := transport]> (transports st);
     keys := if bool_decide (is_Some (transports st !! sessionId))
             then keys st else keys st ++ [sessionId];
     heap := heap st; console := console st |}.

(** [delete transports[sessionId]]: only an own property is removed. *)
Definition remove (sessionId : string) (st : State) : State :=
  {| transports := delete sessionId (transports st);
     keys := filter (λ k, k ≠ sessionId) (keys st);
     heap := heap st; console := console st |}.

(** A [string | undefined] turned into a string, as a template literal or
    a property key does: [undefined] becomes ["undefined"]. *)
Definition str (v : option string) : string := default "undefined" v.

(** What a read of a property of the registry gives: [undefined], a value
    inherited from [Object.prototype] (a function, or the prototype object:
    never a transport), or the transport stored under the key. *)
Inductive Slot :=
| Undefined
| Inherited (name : string)
| Own (transport : handle).

(** [transports[sessionId]]: an own property comes first, then the
    prototype. *)
Definition read (st : State) (sessionId : option string) : Slot :=
  match transports st !! str sessionId with
  | Some transport => Own transport
  | None =>
      if inherits (str sessionId) then Inherited (str sessionId) else Undefined
  end.

(** Truthiness of what a read of the registry gives. *)
Definition defined (v : Slot) : bool :=
  match v with Undefined => false | _ => true end.

(** The transport that a read of the registry gives, if it gives one. *)
Definition lookup (st : State) (sessionId : option string) : option handle :=
  match read st sessionId with
  | Own transport => Some transport
  | _ => None
  end.

(** Calls into the SDK, in the order they are made. *)
Inductive SdkCall :=
| Connect (h : handle)                        (* server.connect(transport) *)
| HandleRequest (h : handle) (req : Request)  (* transport.handleRequest(req, res, ..) *)
| Close (h : handle).                         (* transport.close() *)

(** How an awaited [transport.handleRequest] settles: whether the
    transport has committed the response headers by then, and the error it
    rejects with, if any. *)
Record Await := { aw_headersSent : bool; aw_throws : option string }.

Definition await_res (a : Await) (res : Response) : Response :=
  if aw_headersSent a then SentBySdk else res.

(** The error of calling [handleRequest] on a value that has no such
    method. *)
Definition not_a_function : string :=
  "TypeError: transport.handleRequest is not a function".

(** [await transport.handleRequest(req, res, ..)] for what the registry
    gave: a transport is called, and the call settles as [hr] says; an
    inherited value has no [handleRequest], so the call throws a [TypeError]
    with nothing sent and no transport reached. *)
Definition handleRequest (transport : Slot) (req : Request) (hr : Await)
    : list SdkCall * Await :=
  match transport with
  | Own h => ([HandleRequest h req], hr)
  | _ => ([], {| aw_headersSent := false; aw_throws := Some not_a_function |})
  end.

(** What one handler invocation leaves behind. [out_rejected] is the
    error the handler's own promise rejects with. *)
Record Outcome := {
  out_state : State;
  out_res : Response;
  out_calls : list SdkCall;
  out_rejected : option string
}.

(** *** The callbacks installed on every transport (lines 262-277) *)

Definition onsessioninitialized (h : handle) (sid : string) (st : State) : State :=
  let st := console_write LOG ["Session initialized with ID: " +:+ sid] st in
  assign sid h st.

Definition onclose (h : handle) (st : State) : State :=
  let sid := t ← heap st !! h; sessionId t in
  if truthy sid && defined (read st sid) then
    let st := console_write LOG
      ["Transport closed for session " +:+ str sid +:+
       ", removing from transports map"] st in
    remove (str sid) st
  else st.

(** *** POST /mcp *)

Definition bad_request : JsonRpcError :=
  {| jsonrpc := "2.0"; error_code := -32000;
     error_message := "Bad Request: No valid session ID provided";
     id := None |}.

Definition internal_error : JsonRpcError :=
  {| jsonrpc := "2.0"; error_code := -32603;
     error_message := "Internal server error";
     id := None |}.

(** [new InMemoryEventStore()], [new StreamableHTTPServerTransport(..)]
    and the assignment of [onclose]: a new object on the heap. *)
Definition new_transport (st : State) : handle * State :=
  (length (heap st),
   set_heap (heap st ++ [ {| sessionId := None; isClosed := false;
                             eventStore := ∅ |} ]) st).

(** The [catch] block of [mcpPostHandler]. *)
Definition post_catch (error : string) (res : Response) (calls : list SdkCall)
    (st : State) : Outcome :=
  let st := console_write ERROR ["Error handling MCP request:"; error] st in
  {| out_state := st;
     out_res := if negb (headersSent res) then Sent 500 (Json internal_error) else res;
     out_calls := calls;
     out_rejected := None |}.

(** [connect] is the error [server.connect] rejects with, if any; [hr] is
    how [transport.handleRequest] settles. *)
Definition mcpPostHandler (useOAuth : bool) (req : Request)
    (connect : option string) (hr : Await) (st : State) : Outcome :=
  let sessionId := mcp_session_id req in
  let st :=
    if truthy sessionId
    then console_write LOG ["Received MCP request for session: " +:+ str sessionId] st
    else console_write LOG ["Request body:"; req_body req] st in
  let st :=
    if useOAuth && bool_decide (is_Some (auth req))
    then console_write LOG ["Authenticated user:"; str (auth req)] st
    else st in
  let res := Unsent in
  if truthy sessionId && defined (read st sessionId) then
    (* Reuse existing transport *)
    let transport := read st sessionId in
    let '(calls, hr) := handleRequest transport req hr in
    let res := await_res hr res in
    match aw_throws hr with
    | Some error => post_catch error res calls st
    | None =>
        {| out_state := st; out_res := res; out_calls := calls;
           out_rejected := None |}
    end
  else if negb (truthy sessionId) && isInitializeRequest req then
    (* New initialization request *)
    let '(transport, st) := new_transport st in
    match connect with
    | Some error => post_catch error res [Connect transport] st
    | None =>
        let calls := [Connect transport; HandleRequest transport req] in
        let res := await_res hr res in
        match aw_throws hr with
        | Some error => post_catch error res calls st
        | None =>
            {| out_state := st; out_res := res; out_calls := calls;
               out_rejected := None |}
        end
    end
  else
    (* Invalid request - no session ID or not initialization request *)
    {| out_state := st; out_res := Sent 400 (Json bad_request);
       out_calls := []; out_rejected := None |}.

(** *** GET /mcp *)

Definition mcpGetHandler (useOAuth : bool) (req : Request) (hr : Await)
    (st : State) : Outcome :=
  let sessionId := mcp_session_id req in
  if negb (truthy sessionId) || negb (defined (read st sessionId)) then
    {| out_state := st; out_res := Sent 400 (Text "Invalid or missing session ID");
       out_calls := []; out_rejected := None |}
  else
    let st :=
      if useOAuth && bool_decide (is_Some (auth req))
      then console_write LOG ["Authenticated SSE connection from user:"; str (auth req)] st
      else st in
    let lastEventId := last_event_id req in
    let st :=
      if truthy lastEventId
      then console_write LOG ["Client reconnecting with Last-Event-ID: " +:+ str lastEventId] st
      else console_write LOG ["Establishing new SSE stream for session " +:+ str sessionId] st in
    let transport := read st sessionId in
    let '(calls, hr) := handleRequest transport req hr in
    {| out_state := st; out_res := await_res hr Unsent;
       out_calls := calls;
       out_rejected := aw_throws hr |}.

(** *** DELETE /mcp *)

Definition mcpDeleteHandler (req : Request) (hr : Await) (st : State) : Outcome :=
  let sessionId := mcp_session_id req in
  if negb (truthy sessionId) || negb (defined (read st sessionId)) then
    {| out_state := st; out_res := Sent 400 (Text "Invalid or missing session ID");
       out_calls := []; out_rejected := None |}
  else
    let st := console_write LOG
      ["Received session termination request for session " +:+ str sessionId] st in
    let transport := read st sessionId in
    let '(calls, hr) := handleRequest transport req hr in
    let res := await_res hr Unsent in
    match aw_throws hr with
    | Some error =>
        let st := console_write ERROR ["Error handling session termination:"; error] st in
        {| out_state := st;
           out_res := if negb (headersSent res)
                      then Sent 500 (Text "Error processing session termination")
                      else res;
           out_calls := calls; out_rejected := None |}
    | None =>
        {| out_state := st; out_res := res; out_calls := calls;
           out_rejected := None |}
    end.

(** *** startServer *)

(** What [app.listen(port)] leads to: the server listening on the port
    actually bound, or an ['error'] event with its [code]. *)
Inductive ListenResult :=
| Listening (actualPort : Z)
| ErrorEvent (code : string).

Inductive Process :=
| Serving (port : Z)
| Exited (status : Z).

(** [MCP_PORT] (line 168); [parseInt s] stands for
    [Number.parseInt(s, 10)]. *)
Definition MCP_PORT (parseInt : string → Z) (env_MCP_PORT : option string) : Z :=
  if truthy env_MCP_PORT then parseInt (str env_MCP_PORT) else 3000.

(** The lines the callback passed to [app.listen] prints (lines 385-390). *)
Definition listening (useOAuth : bool) (actualPort : Z) : list LogLine :=
  [ {| level := LOG;
       args := ["MCP Streamable HTTP Server listening on port " +:+ pretty actualPort] |} ]
  ++ (if useOAuth
      then [ {| level := LOG;
                args := ["  Protected Resource Metadata: http://localhost:" +:+
                         pretty actualPort +:+ "/.well-known/oauth-protected-resource/mcp"] |} ]
      else []).

(** [startServer(port)]; [listen] answers each [app.listen], and
    [env_MCP_PORT] is [process.env.MCP_PORT]. The recursion of the source
    is bounded by [fuel]. Express runs the callback of [app.listen] when the
    server is listening and also, once and ahead of the handler registered
    at line 392, when the bind fails; [server.address()] is [null] then, so
    the callback prints the port that was asked for. *)
Fixpoint startServer (fuel : nat) (useOAuth : bool) (env_MCP_PORT : option string)
    (listen : Z → ListenResult) (port : Z) (out : list LogLine)
    : option (Process * list LogLine) :=
  match fuel with
  | O => None
  | S fuel =>
      match listen port with
      | Listening actualPort =>
          Some (Serving actualPort, out ++ listening useOAuth actualPort)
      | ErrorEvent code =>
          let out := out ++ listening useOAuth port in
          if String.eqb code "EADDRINUSE" && negb (truthy env_MCP_PORT) && negb (port =? 0)%Z
          then
            startServer fuel useOAuth env_MCP_PORT listen 0
              (out ++ [ {| level := WARN;
                           args := ["Port " +:+ pretty port +:+
                                    " is already in use, falling back to an available port"] |} ])
          else
            Some (Exited 1,
                  out ++ [ {| level := ERROR; args := ["Failed to start server:"; code] |} ])
      end
  end.

(** *** SIGINT *)

(** How the promise of [transport.close()] settles, if it does. *)
Inductive Settle :=
| Fulfilled
| Rejected (error : string)
| Pending.

(** What one [transport.close()] does: whether the transport got closed,
    which makes the SDK invoke its [onclose] callback, and how the
    returned promise settles. *)
Record CloseResult := { cl_closes : bool; cl_settle : Settle }.

(** The SDK closing transport [h]: the object is closed and its [onclose]
    callback runs. *)
Definition sdk_close (h : handle) (st : State) : State :=
  let st :=
    match heap st !! h with
    | Some t =>
        set_heap (<[h := {| sessionId := sessionId t; isClosed := true;
                           eventStore := eventStore t |}]> (heap st)) st
    | None => st
    end in
  onclose h st.

(** The [for (const sessionId in transports)] loop over the keys it
    enumerates; a key deleted before it is reached is not visited. The
    flag of the result is [false] when an awaited [close()] never settles,
    which leaves the loop suspended there. *)
Fixpoint closeAll (close : handle → CloseResult) (keys : list string)
    (calls : list SdkCall) (st : State) : State * list SdkCall * bool :=
  match keys with
  | [] => (st, calls, true)
  | sessionId :: keys =>
      match transports st !! sessionId with
      | None => closeAll close keys calls st
      | Some transport =>
          let st := console_write LOG ["Closing transport for session " +:+ sessionId] st in
          let calls := calls ++ [Close transport] in
          let st := if cl_closes (close transport) then sdk_close transport st else st in
          match cl_settle (close transport) with
          | Fulfilled =>
              closeAll close keys calls (remove sessionId st)
          | Rejected error =>
              closeAll close keys calls
                (console_write ERROR
                   ["Error closing transport for session " +:+ sessionId +:+ ":"; error] st)
          | Pending => (st, calls, false)
          end
      end
  end.

Record Shutdown := {
  sd_state : State;
  sd_calls : list SdkCall;
  sd_exit : option Z      (* [None]: the handler never reaches process.exit *)
}.

(** The handler of [process.on('SIGINT', ..)]. *)
Definition sigint (close : handle → CloseResult) (st : State) : Shutdown :=
  let st := console_write LOG ["Shutting down server..."] st in
  let '(st, calls, completed) :=
    closeAll close (ownKeys (keys st)) [] st in
  if completed
  then {| sd_state := console_write LOG ["Server shutdown complete"] st;
          sd_calls := calls; sd_exit := Some 0%Z |}
  else {| sd_state := st; sd_calls := calls; sd_exit := None |}.

(** *** The running server *)

(** What happens to the running server: a request reaches one of the three
    routes, or the SDK runs one of the callbacks of a transport: it has
    generated the session id [sid] of transport [h] (it stores the id in the
    transport's [sessionId] and calls [onsessioninitialized]), or transport
    [h] has closed (it calls [onclose]); or transport [h] has stored a
    message it sends on stream [streamId] in its event store. *)
Inductive Event :=
| Post (req : Request) (connect : option string) (hr : Await)
| Get (req : Request) (hr : Await)
| Delete (req : Request) (hr : Await)
| SessionInitialized (h : handle) (sid : string)
| TransportClosed (h : handle)
| MessageStored (h : handle) (streamId payload : string).

(** Modelled from the spec: transport [h] appends a message to a stream of
    the event store it was constructed with, through [append] of the missing
    [inMemoryEventStore] module. *)
Definition store_message (h : handle) (streamId payload : string) (st : State) : State :=
  match heap st !! h with
  | Some t =>
      set_heap (<[h := {| sessionId := sessionId t; isClosed := isClosed t;
                         eventStore := (EventStore.append streamId payload
                                          (eventStore t)).1 |}]> (heap st)) st
  | None => st
  end.

Definition step (useOAuth : bool) (st : State) (ev : Event) : State :=
  match ev with
  | Post req connect hr => out_state (mcpPostHandler useOAuth req connect hr st)
  | Get req hr => out_state (mcpGetHandler useOAuth req hr st)
  | Delete req hr => out_state (mcpDeleteHandler req hr st)
  | SessionInitialized h sid =>
      let st :=
        match heap st !! h with
        | Some t =>
            set_heap (<[h := {| sessionId := Some sid; isClosed := isClosed t;
                               eventStore := eventStore t |}]> (heap st)) st
        | None => st
        end in
      onsessioninitialized h sid st
  | TransportClosed h => sdk_close h st
  | MessageStored h streamId payload => store_message h streamId payload st
  end.

Definition run (useOAuth : bool) (st : State) (evs : list Event) : State :=
  foldl (step useOAuth) st evs.

(** The session ids the SDK has handed out so far. *)
Definition issued (st : State) (sid : string) : bool :=
  existsb (λ t, bool_decide (sessionId t = Some sid)) (heap st).

(** What the SDK guarantees of the callbacks it runs: a session id comes
    from [sessionIdGenerator], that is [randomUUID()], so it is non-empty,
    is not the name of a property of [Object.prototype] and was never issued
    before, and it is generated once, for an open transport that has none;
    only existing transports close. *)
Definition sdk_ok (st : State) (ev : Event) : bool :=
  match ev with
  | SessionInitialized h sid =>
      negb (String.eqb sid "") && negb (inherits sid) && negb (issued st sid) &&
      match heap st !! h with
      | Some t => bool_decide (sessionId t = None) && negb (isClosed t)
      | None => false
      end
  | TransportClosed h => bool_decide (is_Some (heap st !! h))
  | _ => true
  end.

Fixpoint sdk_trace (useOAuth : bool) (st : State) (evs : list Event) : bool :=
  match evs with
  | [] => true
  | ev :: evs => sdk_ok st ev && sdk_trace useOAuth (step useOAuth st ev) evs
  end.

(** Transport [h] carries session id [sid] and is open. *)
Definition is_live (st : State) (sid : string) (h : handle) : bool :=
  match heap st !! h with
  | Some t => bool_decide (sessionId t = Some sid) && negb (isClosed t)
  | None => false
  end.

(** Transport [h] carries session id [sid] and has been closed. *)
Definition is_closed (st : State) (sid : string) (h : handle) : bool :=
  match heap st !! h with
  | Some t => bool_decide (sessionId t = Some sid) && isClosed t
  | None => false
  end.

(** The registry agrees with the transport objects: an id resolves to an
    open transport that carries it, no id is carried by two objects, and the
    ids carried are as the SDK generates them. *)
Record consistent (st : State) : Prop := {
  registered_live :
    ∀ sid h, transports st !! sid = Some h → is_live st sid h = true;
  ids_unique :
    ∀ h1 h2 t1 t2 sid,
      heap st !! h1 = Some t1 → heap st !! h2 = Some t2 →
      sessionId t1 = Some sid → sessionId t2 = Some sid → h1 = h2;
  ids_nonempty :
    ∀ h t, heap st !! h = Some t → sessionId t ≠ Some "";
  ids_plain :
    ∀ h t sid, heap st !! h = Some t → sessionId t = Some sid →
               inherits sid = false
}.

(** Every registry entry points to an object that carries its key. *)
Definition keyed (st : State) : Prop :=
  ∀ k h, transports st !! k = Some h → heap st !! h ≫= sessionId = Some k.

(** [keys] lists the own keys of the registry, each once. *)
Definition keys_ok (st : State) : Prop :=
  NoDup (keys st) ∧ ∀ k, k ∈ keys st ↔ is_Some (transports st !! k).

(** The entries of the registry in the order in which [for ... in]
    enumerates its keys. *)
Definition entries (st : State) : list (string * handle) :=
  (λ k, (k, default 0 (transports st !! k))) <$> ownKeys (keys st).

(** Event [ev] is the [onsessioninitialized] callback firing for [sid]. *)
Definition initializes (sid : string) (ev : Event) : bool :=
  match ev with
  | SessionInitialized _ sid' => bool_decide (sid' = sid)
  | _ => false
  end.

(** The request bears the id of a registered session: the header is truthy
    and [transports] has an entry of its own for it. *)
Definition resolves (st : State) (req : Request) : bool :=
  truthy (mcp_session_id req) &&
  bool_decide (is_Some (transports st !! str (mcp_session_id req))).

(** The test [sessionId && transports[sessionId]] that the three handlers
    make of the session header (negated in GET and DELETE). *)
Definition passes_guard (st : State) (req : Request) : bool :=
  truthy (mcp_session_id req) && defined (read st (mcp_session_id req)).

(** The error that reaches the [catch] block of [mcpPostHandler], with
    [res.headersSent] at that moment: thrown by [transport.handleRequest]
    on either route (by the transport, or by the call itself when the
    registry gave no transport), or by [server.connect] before anything was
    written. *)
Definition post_raised (req : Request) (connect : option string) (hr : Await)
    (st : State) : option (string * bool) :=
  if passes_guard st req then
    let hr := (handleRequest (read st (mcp_session_id req)) req hr).2 in
    error ← aw_throws hr; Some (error, aw_headersSent hr)
  else if negb (truthy (mcp_session_id req)) && isInitializeRequest req then
    match connect with
    | Some error => Some (error, false)
    | None => error ← aw_throws hr; Some (error, aw_headersSent hr)
    end
  else None.

(** Event [ev] is transport [h] closing. *)
Definition closes_transport (h : handle) (ev : Event) : bool :=
  match ev with
  | TransportClosed h' => bool_decide (h' = h)
  | _ => false
  end.

(** Every open transport that carries a session id is registered under
    it. *)
Definition complete (st : State) : Prop :=
  ∀ h t sid, heap st !! h = Some t → sessionId t = Some sid →
             isClosed t = false → transports st !! sid = Some h.

(** The registry a completed shutdown leaves behind: the sessions whose
    [close()] rejected without closing the transport. *)
Definition unclosed (close : handle → CloseResult) (h : handle) : bool :=
  negb (cl_closes (close h)) &&
  match cl_settle (close h) with Rejected _ => true | _ => false end.

(** The event store of transport [h]. *)
Definition store_of (st : State) (h : handle) : EventStore.t :=
  default ∅ (eventStore <$> heap st !! h).

(** The streams of every event store hold the cursors 1..n. *)
Definition stores_wf (st : State) : Prop :=
  ∀ h t streamId log,
    heap st !! h = Some t → eventStore t !! streamId = Some log →
    EventStore.wf_log log.

(** Modelled from the spec: what transport [h] does with a stream reopen it
    is handed, through [replayFrom] of the missing [inMemoryEventStore]
    module: "if a last delivered cursor marker is supplied, replay begins
    from that cursor; otherwise the stream begins live-only (no backlog
    delivered)"; a marker that is no cursor cannot be resumed from. *)
Definition reopen (st : State) (h : handle) (req : Request) (streamId : string)
    : option EventStore.sink :=
  match last_event_id req with
  | None =>
      Some {| EventStore.backlog := []; EventStore.queued := [];
              EventStore.delivered := [] |}
  | Some lastEventId =>
      k ← EventStore.cursor_of lastEventId;
      EventStore.replayFrom streamId k (store_of st h)
  end.

End Server.

(** ** src/index.ts: the token verifier of the OAuth set-up *)

Module Auth.
Import Js.

(** The fields of the parsed introspection answer that the code reads:
    [data.client_id], [data.scope] and [data.exp], each possibly
    [undefined]. *)
Record Introspection := {
  client_id : option string;
  scope : option string;
  exp : option Z
}.

(** What [fetch] resolves to, as far as [verifyAccessToken] looks at it:
    [response.ok], what [response.text()] resolves to ([None] when it
    rejects) and what [response.json()] resolves to (the error when it
    rejects). *)
Record FetchResponse := {
  resp_ok : bool;
  resp_text : option string;
  resp_json : string + Introspection
}.

(** The value [verifyAccessToken] returns. *)
Record AuthInfo := {
  token : string;
  clientId : option string;
  scopes : list string;
  expiresAt : option Z
}.

(** One call of [fetch]: the endpoint and the token posted to it. *)
Record FetchCall := { fc_endpoint : string; fc_token : string }.

(** [tokenVerifier.verifyAccessToken(token)] (lines 198-226).
    [introspection_endpoint] is [oauthMetadata.introspection_endpoint];
    [fetch] answers the POST to the endpoint, with [inl] for a rejected
    promise. The result is the error thrown or the value returned, with the
    calls of [fetch] made. *)
Definition verifyAccessToken (introspection_endpoint : option string)
    (fetch : FetchCall → string + FetchResponse) (token : string)
    : (string + AuthInfo) * list FetchCall :=
  let endpoint := introspection_endpoint in
  if negb (truthy endpoint) then
    (inl "No token verification endpoint available in metadata", [])
  else
    let call := {| fc_endpoint := default "" endpoint; fc_token := token |} in
    match fetch call with
    | inl error => (inl error, [call])
    | inr response =>
        if negb (resp_ok response) then
          let text := default "null" (resp_text response) in
          (inl ("Invalid or expired token: " +:+ text), [call])
        else
          match resp_json response with
          | inl error => (inl error, [call])
          | inr data =>
              (inr {| token := token;
                      clientId := client_id data;
                      scopes := if truthy (scope data)
                                then split " " (default "" (scope data))
                                else [];
                      expiresAt := exp data |},
               [call])
          end
    end.

End Auth.

(** * Properties *)

(** ** The notes file *)

Module NotesFacts.
Import Js Notes.

Example trim_example :
  trim (lit "  tej" ++ [9%N] ++ newline) = lit "tej".
Proof. reflexivity. Qed.

Example trim_blank : trim (lit " " ++ newline ++ [160%N; 0xFEFF%N]) = [].
Proof. reflexivity. Qed.

(** The trimmed form is empty exactly for the texts made of white space
    only. *)
Lemma trimStart_nil s : trimStart s = [] ↔ forallb isWhiteSpace s = true.
Proof.
  induction s as [|c s IH]; simpl; [done|].
  destruct (isWhiteSpace c); simpl; [done|]. split; discriminate.
Qed.

Lemma trimStart_head s c s' : trimStart s = c :: s' → isWhiteSpace c = false.
Proof.
  induction s as [|d s IH]; simpl; [done|].
  destruct (isWhiteSpace d) eqn:Hd; [done|]. by intros [= <- _].
Qed.

Lemma trim_nil s : trim s = [] ↔ forallb isWhiteSpace s = true.
Proof.
  unfold trim, trimEnd. split.
  - intros H. apply (f_equal (@rev N)) in H. rewrite rev_involutive in H. simpl in H.
    apply trimStart_nil in H. rewrite forallb_forall in H.
    destruct (trimStart s) as [|c s'] eqn:Hs; [by apply trimStart_nil|].
    apply trimStart_head in Hs.
    rewrite H in Hs; [done|]. apply in_rev. rewrite rev_involutive. by left.
  - intros H. apply trimStart_nil in H. by rewrite H.
Qed.

Lemma nonempty_length (s : ustring) :
  (0 <? length s)%nat = bool_decide (s ≠ []).
Proof. by destruct s. Qed.

(** *** What the utf8 encoding keeps of a text *)

Lemma plain_not_surrogate c :
  isSurrogate c = false → isLeadSurrogate c = false ∧ isTrailSurrogate c = false.
Proof. unfold isSurrogate. by intros [? ?]%orb_false_iff. Qed.

(** A text without surrogates is stored as it is. *)
Lemma toWellFormed_plain s :
  forallb (λ c, negb (isSurrogate c)) s = true → toWellFormed s = s.
Proof.
  induction s as [|c s IH]; [done|]. simpl.
  intros [Hc Hs]%andb_true_iff. apply negb_true_iff, plain_not_surrogate in Hc.
  destruct Hc as [-> ->]. by rewrite IH.
Qed.

Lemma toWellFormed_cons2 x y s :
  toWellFormed (x :: y :: s) =
  if isLeadSurrogate x then
    if isTrailSurrogate y then x :: y :: toWellFormed s
    else 0xFFFD%N :: toWellFormed (y :: s)
  else if isTrailSurrogate x then 0xFFFD%N :: toWellFormed (y :: s)
  else x :: toWellFormed (y :: s).
Proof. done. Qed.

Lemma toWellFormed_cons1 x :
  toWellFormed [x] = if isSurrogate x then [0xFFFD%N] else [x].
Proof.
  unfold isSurrogate. simpl.
  by destruct (isLeadSurrogate x), (isTrailSurrogate x).
Qed.

Lemma toWellFormed_cons_plain x s :
  isSurrogate x = false → toWellFormed (x :: s) = x :: toWellFormed s.
Proof. intros [Hl Ht]%plain_not_surrogate. simpl. by rewrite Hl, Ht. Qed.

(** A code unit that is no surrogate splits the text: what is before it
    and what is behind it are encoded apart. *)
Lemma toWellFormed_app_plain a c b :
  isSurrogate c = false →
  toWellFormed (a ++ c :: b) = toWellFormed a ++ c :: toWellFormed b.
Proof.
  intros Hc. pose proof (plain_not_surrogate c Hc) as [Hl Ht].
  remember (length a) as n eqn:Hn. revert a Hn.
  induction n as [n IH] using lt_wf_ind. intros a ->.
  destruct a as [|x [|y a]].
  - by apply toWellFormed_cons_plain.
  - change ([x] ++ c :: b) with (x :: c :: b).
    rewrite toWellFormed_cons2, toWellFormed_cons1, Ht.
    rewrite (toWellFormed_cons_plain c b Hc). unfold isSurrogate.
    by destruct (isLeadSurrogate x), (isTrailSurrogate x).
  - change ((x :: y :: a) ++ c :: b) with (x :: y :: (a ++ c :: b)).
    rewrite !(toWellFormed_cons2 x y).
    assert (Hy : toWellFormed (y :: a ++ c :: b)
                 = toWellFormed (y :: a) ++ c :: toWellFormed b).
    { apply (IH (length (y :: a)) ltac:(simpl; lia) (y :: a) eq_refl). }
    assert (Ha : toWellFormed (a ++ c :: b) = toWellFormed a ++ c :: toWellFormed b).
    { apply (IH (length a) ltac:(simpl; lia) a eq_refl). }
    rewrite Hy, Ha.
    by destruct (isLeadSurrogate x), (isTrailSurrogate y), (isTrailSurrogate x).
Qed.

(** Encoding twice is encoding once: what was read from the file is
    written back as it is. *)
Lemma toWellFormed_idemp s : toWellFormed (toWellFormed s) = toWellFormed s.
Proof.
  remember (length s) as n eqn:Hn. revert s Hn.
  induction n as [n IH] using lt_wf_ind. intros s ->.
  assert (Hrep : isSurrogate 0xFFFD%N = false) by done.
  destruct s as [|x [|y s]]; [done| |].
  - rewrite toWellFormed_cons1. destruct (isSurrogate x) eqn:Hx; [done|].
    by rewrite toWellFormed_cons1, Hx.
  - assert (Hy : toWellFormed (toWellFormed (y :: s)) = toWellFormed (y :: s)).
    { apply (IH (length (y :: s)) ltac:(simpl; lia) (y :: s) eq_refl). }
    assert (Hs : toWellFormed (toWellFormed s) = toWellFormed s).
    { apply (IH (length s) ltac:(simpl; lia) s eq_refl). }
    rewrite (toWellFormed_cons2 x y).
    destruct (isLeadSurrogate x) eqn:Hl.
    + destruct (isTrailSurrogate y) eqn:Ht.
      * by rewrite toWellFormed_cons2, Hl, Ht, Hs.
      * by rewrite (toWellFormed_cons_plain _ _ Hrep), Hy.
    + destruct (isTrailSurrogate x) eqn:Ht.
      * by rewrite (toWellFormed_cons_plain _ _ Hrep), Hy.
      * rewrite toWellFormed_cons_plain, Hy; [done|].
        unfold isSurrogate. by rewrite Hl, Ht.
Qed.

Lemma toWellFormed_default :
  toWellFormed (DEFAULT_NOTES ++ newline) = DEFAULT_NOTES ++ newline.
Proof. by vm_compute. Qed.

(** What [appendNote] writes: [existing] and the note are encoded apart,
    since a newline stands between them unless [existing] is empty. *)
Lemma toWellFormed_note (existing note : ustring) :
  let separator :=
    if bool_decide (existing ≠ []) && negb (endsWithNewline existing)
    then newline else [] in
  toWellFormed (existing ++ separator ++ note ++ newline)
  = toWellFormed existing ++ separator ++ toWellFormed note ++ newline.
Proof.
  assert (Hnl : isSurrogate 10%N = false) by done.
  assert (Hend : ∀ t, toWellFormed (t ++ newline) = toWellFormed t ++ newline).
  { intros t. unfold newline. by rewrite toWellFormed_app_plain. }
  cbv zeta. destruct (decide (existing = [])) as [->|Hne].
  { simpl. apply Hend. }
  rewrite bool_decide_eq_true_2 by done. cbn [andb].
  destruct (endsWithNewline existing) eqn:Hnewline; cbn [negb].
  - assert (∃ e, existing = e ++ newline) as [e ->].
    { unfold endsWithNewline in Hnewline.
      destruct (last existing) as [c|] eqn:Hlast; [|done].
      apply N.eqb_eq in Hnewline. subst c.
      apply last_Some in Hlast as [e ->]. by exists e. }
    cbn [app]. unfold newline at 1 3. rewrite <- !app_assoc. cbn [app].
    rewrite (toWellFormed_app_plain e 10%N) by done.
    rewrite (toWellFormed_app_plain e 10%N []) by done.
    rewrite <- !app_assoc. cbn [app toWellFormed]. by rewrite Hend.
  - unfold newline at 1 3. cbn [app].
    rewrite (toWellFormed_app_plain existing 10%N) by done.
    by rewrite Hend.
Qed.

(** [ensureNotesFile] on a file that can be read, and written where it
    has to be. *)
Lemma ensureNotesFile_text f :
  readable f = true →
  writable f = true ∨ is_Some (stored f) →
  ensureNotesFile f =
    Some {| stored := Some (default (DEFAULT_NOTES ++ newline) (stored f));
            readable := true; writable := writable f |}.
Proof.
  intros Hr Hw. unfold ensureNotesFile, readFile, writeFile. rewrite Hr.
  destruct f as [[c|] r w]; cbn [stored readable writable default] in *; subst r.
  - done.
  - destruct Hw as [->|[? [=]]]. by rewrite toWellFormed_default.
Qed.

(** [appendNote] in one equation, when every call to [fs] succeeds. *)
Lemma appendNote_eq text f :
  readable f = true →
  writable f = true ∨ (is_Some (stored f) ∧ trim text = []) →
  let existing := default (DEFAULT_NOTES ++ newline) (stored f) in
  let separator :=
    if bool_decide (existing ≠ []) && negb (endsWithNewline existing)
    then newline else [] in
  appendNote text f =
    ({| stored := Some (if bool_decide (trim text = []) then existing
                        else toWellFormed (existing ++ separator ++ trim text ++ newline));
        readable := true; writable := writable f |}, true).
Proof.
  intros Hr Hw existing separator. unfold appendNote.
  rewrite ensureNotesFile_text by (destruct Hw as [?|[? _]]; auto).
  unfold readFile, writeFile. cbn [stored readable writable]. fold existing.
  rewrite nonempty_length. fold separator.
  destruct (decide (trim text = [])) as [Hb|Hb].
  - by rewrite !bool_decide_eq_true_2.
  - rewrite !(bool_decide_eq_false_2 (trim text = [])) by done.
    destruct Hw as [->|[_ ?]]; done.
Qed.

(** C10, as stated, fails when the notes file cannot be read: for the
    blank input [" "] [appendNote] does not leave the (missing) file alone
    but, through [ensureNotesFile], writes the default notes into it. *)
Lemma appendNote_blank_creates_file :
  let missing := {| stored := None; readable := true; writable := true |} in
  trim [32%N] = [] ∧
  appendNote [32%N] missing
    = ({| stored := Some (DEFAULT_NOTES ++ newline);
          readable := true; writable := true |}, true) ∧
  stored (appendNote [32%N] missing).1 ≠ stored missing.
Proof. by vm_compute. Qed.

(** C10 (amended): let [existing] be the text of the notes file once
    [ensureNotesFile] has run, that is the file's text when there is one
    and the default notes followed by a newline otherwise; and let the file
    be readable and every write the call makes succeed (the file is
    writable, or there is a file and the input is blank, so that nothing is
    written). For an input whose trimmed form is empty the file afterwards
    holds exactly [existing] (a file that was there is left as it was), and
    [add_note] still answers with the message quoting the (empty) trimmed
    text; otherwise the file afterwards holds, as the utf8 encoding stores
    it (a surrogate outside a pair becomes U+FFFD), [existing], a newline if
    [existing] is non-empty and does not end with one, the trimmed text and
    a final newline: as they are when they hold no surrogate. *)
Theorem appendNote_spec (text : ustring) (f : file) :
  readable f = true →
  writable f = true ∨ (is_Some (stored f) ∧ trim text = []) →
  let existing := default (DEFAULT_NOTES ++ newline) (stored f) in
  let separator :=
    if bool_decide (existing ≠ []) && negb (endsWithNewline existing)
    then newline else [] in
  let after :=
    if bool_decide (trim text = []) then existing
    else toWellFormed (existing ++ separator ++ trim text ++ newline) in
  let f' := {| stored := Some after; readable := true; writable := writable f |} in
  appendNote text f = (f', true) ∧
  add_note text f =
    (f', Some {| content :=
           [ {| c_type := "text";
                c_text := lit "Jegyzet hozzaadva: " ++ [34%N] ++ trim text ++ [34%N] |} ] |}) ∧
  (trim text ≠ [] →
   forallb (λ c, negb (isSurrogate c)) (existing ++ trim text) = true →
   after = existing ++ separator ++ trim text ++ newline).
Proof.
  intros Hr Hw existing separator after f'.
  assert (Happ : appendNote text f = (f', true)).
  { by rewrite appendNote_eq. }
  split; [done|]. split; [unfold add_note; by rewrite Happ|].
  intros Hb Hplain. subst after. rewrite bool_decide_eq_false_2 by done.
  apply toWellFormed_plain.
  rewrite !forallb_app in *. apply andb_true_iff in Hplain as [-> ->].
  subst separator. by case_match.
Qed.

Lemma appendNote_spec_witness :
  appendNote [97%N; 0xD800%N]
    {| stored := Some (lit "tej"); readable := true; writable := true |}
  = ({| stored := Some (lit "tej" ++ newline ++ [97%N; 0xFFFD%N] ++ newline);
        readable := true; writable := true |}, true).
Proof.
  destruct (appendNote_spec [97%N; 0xD800%N]
              {| stored := Some (lit "tej"); readable := true; writable := true |})
    as [H _]; [reflexivity|by left|].
  rewrite H. reflexivity.
Defined.

End NotesFacts.

(** ** The event store: replay under interleaved appends *)

Module EventStoreFacts.
Import EventStore.

Lemma wf_log_snoc log payload :
  wf_log log →
  wf_log (log ++ [ {| ev_cursor := S (length log); ev_payload := payload |} ]).
Proof.
  unfold wf_log. intros Hwf.
  rewrite map_app, length_app, Hwf. simpl.
  replace (length log + 1) with (S (length log)) by lia.
  by rewrite seq_S.
Qed.

(** On a log with cursors 1..n, the events with cursor above [k] are the
    log without its first [k] events. *)
Lemma after_cursor_drop log k :
  wf_log log → filter (λ e, k < ev_cursor e) log = drop k log.
Proof.
  unfold wf_log. revert k. induction log as [|e log IH] using rev_ind; intros k Hwf.
  { by rewrite drop_nil. }
  rewrite map_app, length_app in Hwf. simpl in Hwf.
  replace (length log + 1) with (S (length log)) in Hwf by lia.
  rewrite seq_S in Hwf. apply app_inj_tail in Hwf as [Hlog He].
  rewrite filter_app, IH by done.
  destruct (decide (k ≤ length log)) as [Hk|Hk].
  - rewrite drop_app_le by done. f_equal.
    rewrite filter_cons_True; [done|]. simpl in He. lia.
  - rewrite !drop_ge by (rewrite ?length_app; simpl; lia).
    rewrite filter_cons_False; [done|]. simpl in He. lia.
Qed.

Lemma cursors_drop log k :
  wf_log log → map ev_cursor (drop k log) = seq (S k) (length log - k).
Proof.
  unfold wf_log. intros Hwf.
  change (S k) with (1 + k). rewrite <- drop_seq, <- Hwf.
  apply (fmap_drop ev_cursor).
Qed.

Lemma step_inv log k a r :
  k ≤ length log → replay_inv log k r → replay_inv log k (step a r).
Proof.
  intros Hk [Hwf [live Hlive] Hsink]. destruct a as [streamId payload|]; simpl.
  - unfold log_of, pending in *. simpl.
    case_bool_decide as Hs; simpl.
    + subst streamId.
      split; unfold log_of, pending; cbn [store stream out backlog queued delivered];
        rewrite lookup_insert_eq; simpl.
      * by apply wf_log_snoc.
      * exists (live ++ [ {| ev_cursor := S (length (default [] (store r !! stream r)));
                             ev_payload := payload |} ]).
        by rewrite Hlive, <- app_assoc.
      * rewrite drop_app_le by (rewrite Hlive, length_app; lia).
        rewrite <- Hsink. by rewrite <- !app_assoc.
    + split; unfold log_of, pending; cbn [store stream out backlog queued delivered];
        rewrite lookup_insert_ne by done; eauto.
  - unfold pending in *.
    destruct (backlog (out r)) as [|e b] eqn:Hb.
    + destruct (queued (out r)) as [|e q] eqn:Hq.
      * split; eauto. unfold pending. by rewrite Hb, Hq.
      * split; eauto. unfold pending. simpl in *. by rewrite <- app_assoc.
    + split; eauto. unfold pending. simpl in *. by rewrite <- app_assoc.
Qed.

Lemma run_inv log k acts r :
  k ≤ length log → replay_inv log k r → replay_inv log k (run acts r).
Proof.
  intros Hk. revert r. induction acts as [|a acts IH]; intros r Hr; [done|].
  simpl. apply IH. by apply step_inv.
Qed.

(** Deliveries alone drain what is pending, in order, and touch nothing
    else. *)
Lemma drain r :
  let r' := run (replicate (length (pending r)) Deliver) r in
  delivered (out r') = delivered (out r) ++ pending r ∧
  pending r' = [] ∧ store r' = store r ∧ stream r' = stream r.
Proof.
  remember (length (pending r)) as n eqn:Hn. revert r Hn.
  induction n as [|n IH]; intros r Hn; simpl.
  - symmetry in Hn. apply length_zero_iff_nil in Hn. rewrite Hn.
    by rewrite app_nil_r.
  - unfold pending in Hn.
    destruct (backlog (out r)) as [|e b] eqn:Hb.
    + destruct (queued (out r)) as [|e q] eqn:Hq; [done|].
      simpl in Hn. injection Hn as Hn.
      specialize (IH {| store := store r; stream := stream r;
                        out := {| backlog := []; queued := q;
                                  delivered := delivered (out r) ++ [e] |} |}).
      unfold pending in IH. simpl in IH. specialize (IH Hn).
      destruct IH as (Hd & Hp & Hs & Hst).
      unfold pending. rewrite Hb, Hq. simpl.
      rewrite Hd, <- app_assoc. done.
    + simpl in Hn. injection Hn as Hn.
      specialize (IH {| store := store r; stream := stream r;
                        out := {| backlog := b; queued := queued (out r);
                                  delivered := delivered (out r) ++ [e] |} |}).
      unfold pending in IH. simpl in IH. specialize (IH Hn).
      destruct IH as (Hd & Hp & Hs & Hst).
      unfold pending. rewrite Hb. simpl.
      rewrite Hd, <- app_assoc. done.
Qed.

End EventStoreFacts.

(** ** The session server *)

Module ServerFacts.
Import Js Server.

Lemma truthy_nonempty (s : string) : s ≠ "" → truthy (Some s) = true.
Proof.
  intros Hs. simpl. destruct (String.eqb_spec s ""); [done|done].
Qed.

(** A read of the registry gives a transport exactly for an own key. *)
Lemma lookup_own st v : lookup st v = transports st !! str v.
Proof.
  unfold lookup, read. destruct (transports st !! str v); [done|].
  by destruct (inherits (str v)).
Qed.

Lemma read_own st v h : transports st !! str v = Some h → read st v = Own h.
Proof. unfold read. by intros ->. Qed.

Lemma read_undefined st v :
  read st v = Undefined ↔ transports st !! str v = None ∧ inherits (str v) = false.
Proof.
  unfold read. destruct (transports st !! str v); [by split; [|intros []]|].
  destruct (inherits (str v)); by split; [|intros []].
Qed.

Lemma resolves_lookup st req :
  resolves st req =
  truthy (mcp_session_id req) && bool_decide (is_Some (lookup st (mcp_session_id req))).
Proof. unfold resolves. by rewrite lookup_own. Qed.

(** A request that names a registered session passes the guard. *)
Lemma resolves_passes st req : resolves st req = true → passes_guard st req = true.
Proof.
  unfold resolves, passes_guard. intros [-> Hreg]%andb_true_iff.
  apply bool_decide_eq_true in Hreg as [h Hh]. by rewrite (read_own _ _ h).
Qed.

(** The guard fails for a falsy header, and for one that is neither an own
    key of the registry nor the name of an inherited property. *)
Lemma guard_fails st req :
  passes_guard st req = false ↔
  truthy (mcp_session_id req) = false ∨ read st (mcp_session_id req) = Undefined.
Proof.
  unfold passes_guard. destruct (truthy (mcp_session_id req)); simpl.
  - destruct (read st (mcp_session_id req)); simpl; split; auto; by intros [|].
  - split; auto.
Qed.

(** Writing to the console changes nothing of what the registry gives. *)
Lemma read_console_write l a st v : read (console_write l a st) v = read st v.
Proof. done. Qed.

(** *** The three handlers leave the registry alone *)

Lemma post_transports useOAuth req connect hr st :
  transports (out_state (mcpPostHandler useOAuth req connect hr st)) = transports st.
Proof.
  unfold mcpPostHandler, post_catch, new_transport, handleRequest.
  repeat (case_match; simpl; try done); simplify_eq; done.
Qed.

Lemma get_transports useOAuth req hr st :
  transports (out_state (mcpGetHandler useOAuth req hr st)) = transports st.
Proof.
  unfold mcpGetHandler, handleRequest. repeat (case_match; simpl; try done).
Qed.

Lemma delete_transports req hr st :
  transports (out_state (mcpDeleteHandler req hr st)) = transports st.
Proof.
  unfold mcpDeleteHandler, handleRequest. repeat (case_match; simpl; try done).
Qed.

Lemma post_keys useOAuth req connect hr st :
  keys (out_state (mcpPostHandler useOAuth req connect hr st)) = keys st.
Proof.
  unfold mcpPostHandler, post_catch, new_transport, handleRequest.
  repeat (case_match; simpl; try done); simplify_eq; done.
Qed.

Lemma get_keys useOAuth req hr st :
  keys (out_state (mcpGetHandler useOAuth req hr st)) = keys st.
Proof.
  unfold mcpGetHandler, handleRequest. repeat (case_match; simpl; try done).
Qed.

Lemma delete_keys req hr st :
  keys (out_state (mcpDeleteHandler req hr st)) = keys st.
Proof.
  unfold mcpDeleteHandler, handleRequest. repeat (case_match; simpl; try done).
Qed.

(** *** Requests that fail the guard *)

Lemma get_invalid useOAuth req hr st :
  passes_guard st req = false →
  mcpGetHandler useOAuth req hr st =
  {| out_state := st; out_res := Sent 400 (Text "Invalid or missing session ID");
     out_calls := []; out_rejected := None |}.
Proof.
  unfold passes_guard, mcpGetHandler. intros Hg.
  destruct (truthy (mcp_session_id req)); [|done].
  cbn [andb negb orb] in *. by rewrite Hg.
Qed.

Lemma delete_invalid req hr st :
  passes_guard st req = false →
  mcpDeleteHandler req hr st =
  {| out_state := st; out_res := Sent 400 (Text "Invalid or missing session ID");
     out_calls := []; out_rejected := None |}.
Proof.
  unfold passes_guard, mcpDeleteHandler. intros Hg.
  destruct (truthy (mcp_session_id req)); [|done].
  cbn [andb negb orb] in *. by rewrite Hg.
Qed.

(** *** Who writes the registry *)

Lemma onclose_absent h st sid :
  transports st !! sid = None → transports (onclose h st) !! sid = None.
Proof.
  intros Hsid. unfold onclose. set (v := mbind _ _).
  case_match; [|done]. cbn [transports remove console_write].
  destruct (decide (str v = sid)) as [->|Hne].
  - apply lookup_delete_eq.
  - by rewrite lookup_delete_ne.
Qed.

Lemma sdk_close_transports h st :
  transports (sdk_close h st) =
  transports (onclose h st) ∧
  (∀ sid, transports st !! sid = None → transports (sdk_close h st) !! sid = None).
Proof.
  split.
  - unfold sdk_close. destruct (heap st !! h) as [t|] eqn:Ht; [|done].
    unfold onclose. cbn [heap set_heap]. rewrite list_lookup_insert_eq
      by (by eapply lookup_lt_Some).
    rewrite Ht. simpl. unfold read. simpl. by case_match.
  - intros sid Hsid. unfold sdk_close. apply onclose_absent.
    by destruct (heap st !! h).
Qed.

Lemma store_message_transports h streamId payload st :
  transports (store_message h streamId payload st) = transports st ∧
  keys (store_message h streamId payload st) = keys st ∧
  console (store_message h streamId payload st) = console st.
Proof. unfold store_message. by destruct (heap st !! h). Qed.

(** Only the [onsessioninitialized] callback for [sid] can make [sid] a key
    of the registry. *)
Lemma step_absent useOAuth st ev sid :
  initializes sid ev = false →
  transports st !! sid = None →
  transports (step useOAuth st ev) !! sid = None.
Proof.
  intros Hev Hsid.
  destruct ev as [req connect hr|req hr|req hr|h sid'|h|h streamId payload]; simpl.
  - by rewrite post_transports.
  - by rewrite get_transports.
  - by rewrite delete_transports.
  - simpl in Hev. apply bool_decide_eq_false in Hev.
    rewrite lookup_insert_ne by done. by destruct (heap st !! h).
  - by apply sdk_close_transports.
  - by destruct (store_message_transports h streamId payload st) as [-> _].
Qed.

Lemma run_absent useOAuth st evs sid :
  forallb (λ ev, negb (initializes sid ev)) evs = true →
  transports st !! sid = None →
  transports (run useOAuth st evs) !! sid = None.
Proof.
  revert st. induction evs as [|ev evs IH]; intros st Hevs Hst; [done|].
  simpl in Hevs. apply andb_true_iff in Hevs as [Hev Hevs].
  apply negb_true_iff in Hev. simpl. apply IH; [done|].
  by apply step_absent.
Qed.

(** C2: a session id for which the [onsessioninitialized] callback has not
    fired yet is absent from the registry: whatever requests and callbacks
    the server has gone through since it started (the callbacks as the SDK
    runs them), [transports] has no entry of its own for the id and a read
    of it never gives a transport, so no request finds a session under it.
    For an id that is not the name of a property inherited from
    [Object.prototype] (no id that [randomUUID] generates is one) the read
    gives [undefined], and every request that bears the id fails the guard
    of the handlers. *)
Theorem no_premature_visibility (useOAuth : bool) (evs : list Event) (sid : string) :
  sdk_trace useOAuth init evs = true →
  forallb (λ ev, negb (initializes sid ev)) evs = true →
  let st := run useOAuth init evs in
  transports st !! sid = None ∧
  lookup st (Some sid) = None ∧
  (∀ req, mcp_session_id req = Some sid → resolves st req = false) ∧
  (inherits sid = false →
   read st (Some sid) = Undefined ∧
   ∀ req, mcp_session_id req = Some sid → passes_guard st req = false).
Proof.
  intros _ Hevs st.
  assert (Hnone : transports st !! sid = None).
  { apply run_absent; [done|apply lookup_empty]. }
  split_and!; [done|by rewrite lookup_own| |].
  - intros req Hreq. unfold resolves. rewrite Hreq. simpl. rewrite Hnone.
    by rewrite andb_false_r.
  - intros Hplain.
    assert (Hread : read st (Some sid) = Undefined) by by apply read_undefined.
    split; [done|]. intros req Hreq. apply guard_fails. right. by rewrite Hreq.
Qed.

Lemma no_premature_visibility_witness :
  let evs :=
    [ Post {| mcp_session_id := None; last_event_id := None;
              req_body := "initialize"; isInitializeRequest := true;
              auth := None |} None
           {| aw_headersSent := true; aw_throws := None |};
      SessionInitialized 0 "s1";
      Get {| mcp_session_id := Some "s2"; last_event_id := None;
             req_body := ""; isInitializeRequest := false; auth := None |}
          {| aw_headersSent := false; aw_throws := None |} ] in
  transports (run false init evs) !! "s2" = None ∧
  is_Some (transports (run false init evs) !! "s1").
Proof.
  intros evs. split.
  - apply (no_premature_visibility false evs "s2"); reflexivity.
  - vm_compute. eauto.
Defined.

(** *** POST: rejection of requests without a session *)

(** C3, as stated, fails for a session header that is present but empty:
    the header does not resolve in [transports], yet an initialization
    payload sent with it is served like one without a header: a transport
    is created, connected and invoked. *)
Lemma post_empty_session_header_initializes :
  let req := {| mcp_session_id := Some ""; last_event_id := None;
                req_body := "initialize"; isInitializeRequest := true;
                auth := None |} in
  let o := mcpPostHandler false req None
             {| aw_headersSent := true; aw_throws := None |} init in
  lookup init (mcp_session_id req) = None ∧
  read init (mcp_session_id req) = Undefined ∧
  out_res o = SentBySdk ∧
  out_calls o = [Connect 0; HandleRequest 0 req] ∧
  length (heap (out_state o)) = 1 ∧ heap init = [].
Proof. by vm_compute. Qed.

(** The log lines at the head of [mcpPostHandler] touch the console
    only. *)
Lemma post_state_lookup useOAuth req st :
  let st1 :=
    if truthy (mcp_session_id req)
    then console_write LOG
           ["Received MCP request for session: " +:+ str (mcp_session_id req)] st
    else console_write LOG ["Request body:"; req_body req] st in
  let st2 :=
    if useOAuth && bool_decide (is_Some (auth req))
    then console_write LOG ["Authenticated user:"; str (auth req)] st1
    else st1 in
  transports st2 = transports st ∧ heap st2 = heap st ∧
  ∀ v, read st2 v = read st v.
Proof. simpl. by repeat case_match. Qed.

(** The [else] branch of [mcpPostHandler]. *)
Lemma post_invalid useOAuth req connect hr st :
  (truthy (mcp_session_id req) = false ∧ isInitializeRequest req = false) ∨
  (truthy (mcp_session_id req) = true ∧ read st (mcp_session_id req) = Undefined) →
  mcpPostHandler useOAuth req connect hr st =
  {| out_state := out_state (mcpPostHandler useOAuth req connect hr st);
     out_res := Sent 400 (Json bad_request);
     out_calls := []; out_rejected := None |} ∧
  transports (out_state (mcpPostHandler useOAuth req connect hr st)) = transports st ∧
  heap (out_state (mcpPostHandler useOAuth req connect hr st)) = heap st.
Proof.
  intros H. unfold mcpPostHandler.
  destruct (post_state_lookup useOAuth req st) as (Ht & Hh & Hread).
  cbv zeta in Ht, Hh, Hread. rewrite Hread.
  destruct H as [[Hid Hinit]|[Hid Hlook]]; rewrite Hid in *; cbn [andb negb].
  - by rewrite Hinit.
  - by rewrite Hlook.
Qed.

(** C3 (amended): when the session id header is absent or empty and the
    payload is not an initialization request, or the header is non-empty
    and the registry gives nothing for it (it is no key of [transports] and
    no name of a property inherited from [Object.prototype]), the POST
    handler answers 400 with the invalid-request error object, creates no
    transport, calls no transport, and leaves [transports] as it was. *)
Theorem post_rejects_unresolved (useOAuth : bool) (req : Request)
    (connect : option string) (hr : Await) (st : State) :
  (truthy (mcp_session_id req) = false ∧ isInitializeRequest req = false) ∨
  (truthy (mcp_session_id req) = true ∧
   transports st !! str (mcp_session_id req) = None ∧
   inherits (str (mcp_session_id req)) = false) →
  let o := mcpPostHandler useOAuth req connect hr st in
  out_res o = Sent 400 (Json bad_request) ∧
  error_code bad_request = (-32000)%Z ∧
  out_calls o = [] ∧ out_rejected o = None ∧
  transports (out_state o) = transports st ∧
  heap (out_state o) = heap st.
Proof.
  intros H o. subst o.
  destruct (post_invalid useOAuth req connect hr st) as (-> & Ht & Hh); [|done].
  destruct H as [?|[? ?]]; [by left|right]. split; [done|]. by apply read_undefined.
Qed.

Lemma post_rejects_unresolved_witness :
  let req := {| mcp_session_id := Some "S-unknown"; last_event_id := None;
                req_body := "tools/call"; isInitializeRequest := false;
                auth := None |} in
  out_res (mcpPostHandler false req None
             {| aw_headersSent := false; aw_throws := None |} init)
  = Sent 400 (Json bad_request).
Proof.
  intros req.
  apply (post_rejects_unresolved false req None
           {| aw_headersSent := false; aw_throws := None |} init).
  right. split_and!; reflexivity.
Defined.

(** *** The bodies of session rejections *)

(** C7, as stated, fails on the GET route (and likewise on DELETE): a
    request without a session header is answered with status 400 and the
    plain text [Invalid or missing session ID], which is no error object and
    carries neither an error code nor an id. *)
Lemma get_rejection_is_plain_text :
  let req := {| mcp_session_id := None; last_event_id := None;
                req_body := ""; isInitializeRequest := false; auth := None |} in
  let hr := {| aw_headersSent := false; aw_throws := None |} in
  out_res (mcpGetHandler false req hr init)
    = Sent 400 (Text "Invalid or missing session ID") ∧
  out_res (mcpDeleteHandler req hr init)
    = Sent 400 (Text "Invalid or missing session ID") ∧
  ∀ status e, out_res (mcpGetHandler false req hr init) ≠ Sent status (Json e).
Proof. by vm_compute. Qed.

(** C7 (amended): a request that the handlers reject for its session
    context, that is one whose session id header is missing or empty, or is
    neither a key of [transports] nor the name of a property inherited from
    [Object.prototype], is answered with status 400; on the POST route
    (unless it is an initialization request without a session id, which is
    served) the body is the error object with the fixed code -32000 and a
    null id; on the GET and DELETE routes the body is the plain text
    [Invalid or missing session ID]. *)
Theorem session_rejection_bodies (useOAuth : bool) (req : Request)
    (connect : option string) (hr : Await) (st : State) :
  truthy (mcp_session_id req) = false ∨
  (transports st !! str (mcp_session_id req) = None ∧
   inherits (str (mcp_session_id req)) = false) →
  out_res (mcpGetHandler useOAuth req hr st)
    = Sent 400 (Text "Invalid or missing session ID") ∧
  out_res (mcpDeleteHandler req hr st)
    = Sent 400 (Text "Invalid or missing session ID") ∧
  (negb (truthy (mcp_session_id req)) && isInitializeRequest req = false →
   out_res (mcpPostHandler useOAuth req connect hr st)
     = Sent 400 (Json {| jsonrpc := "2.0"; error_code := -32000;
                         error_message := "Bad Request: No valid session ID provided";
                         id := None |})).
Proof.
  intros Hctx.
  assert (Hg : passes_guard st req = false).
  { apply guard_fails. destruct Hctx as [?|?]; [by left|right].
    by apply read_undefined. }
  split_and!.
  - by rewrite get_invalid.
  - by rewrite delete_invalid.
  - intros Hinit.
    cut ((truthy (mcp_session_id req) = false ∧ isInitializeRequest req = false) ∨
         (truthy (mcp_session_id req) = true ∧ read st (mcp_session_id req) = Undefined)).
    { intros H. by destruct (post_invalid useOAuth req connect hr st H) as (-> & _). }
    apply guard_fails in Hg.
    destruct (truthy (mcp_session_id req)) eqn:Hid.
    + right. split; [done|]. by destruct Hg.
    + left. split; [done|]. by destruct (isInitializeRequest req).
Qed.

Lemma session_rejection_bodies_witness :
  let req := {| mcp_session_id := Some "S-unknown"; last_event_id := None;
                req_body := "tools/call"; isInitializeRequest := false;
                auth := None |} in
  let hr := {| aw_headersSent := false; aw_throws := None |} in
  out_res (mcpGetHandler false req hr init)
    = Sent 400 (Text "Invalid or missing session ID") ∧
  out_res (mcpPostHandler false req None hr init)
    = Sent 400 (Json bad_request).
Proof.
  intros req hr.
  destruct (session_rejection_bodies false req None hr init) as (Hget & _ & Hpost).
  - right. split; reflexivity.
  - split; [exact Hget|]. apply Hpost. reflexivity.
Defined.

(** *** POST: internal faults *)

(** C8: when [server.connect] or [transport.handleRequest] throws while a
    POST request is processed, the handler logs the error, and it answers
    with status 500 and the internal-error object (code -32603, null id)
    exactly when the response headers had not been sent at that moment;
    when they had, the response stays as the transport left it and no error
    body is written. The handler itself does not fail. *)
Theorem post_internal_fault (useOAuth : bool) (req : Request)
    (connect : option string) (hr : Await) (st : State)
    (error : string) (sent : bool) :
  post_raised req connect hr st = Some (error, sent) →
  let o := mcpPostHandler useOAuth req connect hr st in
  last (console (out_state o))
    = Some {| level := ERROR; args := ["Error handling MCP request:"; error] |} ∧
  out_res o = (if sent then SentBySdk
               else Sent 500 (Json {| jsonrpc := "2.0"; error_code := -32603;
                                      error_message := "Internal server error";
                                      id := None |})) ∧
  (out_res o = Sent 500 (Json internal_error) ↔ sent = false) ∧
  out_rejected o = None.
Proof.
  intros Hraised o.
  assert (Hcatch : ∀ res calls st',
    headersSent res = sent →
    (sent = true → res = SentBySdk) →
    let o' := post_catch error res calls st' in
    last (console (out_state o'))
      = Some {| level := ERROR; args := ["Error handling MCP request:"; error] |} ∧
    out_res o' = (if sent then SentBySdk else Sent 500 (Json internal_error)) ∧
    (out_res o' = Sent 500 (Json internal_error) ↔ sent = false) ∧
    out_rejected o' = None).
  { intros res calls st' Hsent Hres. simpl. rewrite last_snoc, Hsent.
    destruct sent; simpl.
    - rewrite Hres by done. by split_and!.
    - by split_and!. }
  subst o. unfold post_raised, passes_guard in Hraised. unfold mcpPostHandler.
  destruct (post_state_lookup useOAuth req st) as (Ht & Hh & Hread).
  cbv zeta in Ht, Hh, Hread. rewrite Hread.
  destruct (truthy (mcp_session_id req) && defined (read st (mcp_session_id req))).
  - destruct (handleRequest (read st (mcp_session_id req)) req hr) as [calls hr'].
    cbn [snd] in Hraised.
    destruct (aw_throws hr') as [e|] eqn:Hthrow; [|done].
    simpl in Hraised. injection Hraised as -> <-.
    apply Hcatch; unfold await_res; by destruct (aw_headersSent hr').
  - destruct (negb (truthy (mcp_session_id req)) && isInitializeRequest req); [|done].
    unfold new_transport. cbv iota beta.
    destruct connect as [e|].
    + injection Hraised as -> <-. by apply Hcatch.
    + destruct (aw_throws hr) as [e|] eqn:Hthrow; [|done].
      simpl in Hraised. injection Hraised as -> <-.
      apply Hcatch; unfold await_res; by destruct (aw_headersSent hr).
Qed.

Lemma post_internal_fault_witness :
  let req := {| mcp_session_id := None; last_event_id := None;
                req_body := "initialize"; isInitializeRequest := true;
                auth := None |} in
  out_res (mcpPostHandler false req (Some "connect failed")
             {| aw_headersSent := false; aw_throws := None |} init)
    = Sent 500 (Json internal_error) ∧
  out_res (mcpPostHandler false req None
             {| aw_headersSent := true; aw_throws := Some "stream broke" |} init)
    = SentBySdk.
Proof.
  intros req.
  destruct (post_internal_fault false req (Some "connect failed")
              {| aw_headersSent := false; aw_throws := None |} init
              "connect failed" false) as (_ & H1 & _); [reflexivity|].
  destruct (post_internal_fault false req None
              {| aw_headersSent := true; aw_throws := Some "stream broke" |} init
              "stream broke" true) as (_ & H2 & _); [reflexivity|].
  split; [exact H1 | exact H2].
Defined.

(** *** Closing what is not there *)

(** C6 fails for a session id that is the name of a property a plain
    object inherits, here [toString], on a server that has no session at
    all: the guard of [mcpDeleteHandler] reads the inherited function, which
    is truthy, so the request is not turned away with status 400; the call
    of [handleRequest] on that function then raises a [TypeError], which is
    logged as an error and answered with status 500. *)
Lemma delete_unknown_id_raises :
  let req := {| mcp_session_id := Some "toString"; last_event_id := None;
                req_body := ""; isInitializeRequest := false; auth := None |} in
  let o := mcpDeleteHandler req {| aw_headersSent := true; aw_throws := None |} init in
  transports init !! "toString" = None ∧
  read init (Some "toString") = Inherited "toString" ∧
  out_calls o = [] ∧
  last (console (out_state o))
    = Some {| level := ERROR;
              args := ["Error handling session termination:";
                       "TypeError: transport.handleRequest is not a function"] |} ∧
  out_res o = Sent 500 (Text "Error processing session termination").
Proof. by vm_compute. Qed.

(** [onclose] of a transport whose session id is no key of the registry
    removes nothing. *)
Lemma onclose_keeps h st :
  (∀ sid, heap st !! h ≫= sessionId = Some sid → transports st !! sid = None) →
  transports (onclose h st) = transports st ∧ heap (onclose h st) = heap st.
Proof.
  intros Habsent. unfold onclose.
  change (mbind (λ t, sessionId t) (heap st !! h)) with (heap st !! h ≫= sessionId).
  destruct (heap st !! h ≫= sessionId) as [sid|] eqn:Hsid; [|done].
  case_match; [|done]. cbn [transports heap remove console_write str default].
  split; [|done]. apply delete_id. by apply Habsent.
Qed.

(** When the registry gives nothing for the id, [onclose] does nothing at
    all. *)
Lemma onclose_noop h st :
  (∀ sid, heap st !! h ≫= sessionId = Some sid → read st (Some sid) = Undefined) →
  onclose h st = st.
Proof.
  intros Habsent. unfold onclose.
  change (mbind (λ t, sessionId t) (heap st !! h)) with (heap st !! h ≫= sessionId).
  destruct (heap st !! h ≫= sessionId) as [sid|] eqn:Hsid; [|done].
  rewrite (Habsent sid eq_refl). by rewrite andb_false_r.
Qed.

(** *** startServer *)

(** Two rounds are enough: the retry binds port 0 and is not retried. *)
Lemma startServer_total fuel useOAuth env listen port out :
  is_Some (startServer (S (S fuel)) useOAuth env listen port out).
Proof.
  cbn [startServer]. destruct (listen port) as [p|code]; [by eexists|].
  case_match; [|by eexists].
  destruct (listen 0%Z); [by eexists|].
  rewrite Z.eqb_refl, andb_false_r. by eexists.
Qed.

(** C9, as stated, fails when [MCP_PORT] is set to the empty string: the
    variable is set, which C9 counts among the cases that end the process
    when the port is occupied, but the server falls back to an ephemeral
    port as if it were unset. *)
Lemma startServer_empty_MCP_PORT_falls_back :
  let listen := λ port : Z,
    if (port =? 3000)%Z then ErrorEvent "EADDRINUSE" else Listening 49152 in
  (∀ parseInt, MCP_PORT parseInt (Some "") = 3000%Z) ∧
  fst <$> startServer 2 false (Some "") listen 3000 [] = Some (Serving 49152) ∧
  fst <$> startServer 2 false (Some "") listen 3000 [] ≠ Some (Exited 1).
Proof. by vm_compute. Qed.

(** C9 (amended): when binding [port] fails, the server falls back to
    port 0 if the error is EADDRINUSE, [MCP_PORT] is unset or empty, and
    [port] is not 0 already: it then serves on the ephemeral port if that
    bind succeeds, and exits with status 1 if it fails too. In every other
    bind-error case the process exits with status 1. *)
Theorem startServer_bind_error (fuel : nat) (useOAuth : bool)
    (env_MCP_PORT : option string) (listen : Z → ListenResult)
    (port : Z) (code : string) (out : list LogLine) :
  listen port = ErrorEvent code →
  fst <$> startServer (S (S fuel)) useOAuth env_MCP_PORT listen port out =
  Some (if bool_decide (code = "EADDRINUSE") && negb (truthy env_MCP_PORT)
           && bool_decide (port ≠ 0%Z)
        then match listen 0%Z with
             | Listening actualPort => Serving actualPort
             | ErrorEvent _ => Exited 1
             end
        else Exited 1).
Proof.
  intros Hport. cbn [startServer]. rewrite Hport.
  assert (String.eqb code "EADDRINUSE" = bool_decide (code = "EADDRINUSE")) as ->.
  { case_bool_decide as Hc.
    - by apply String.eqb_eq.
    - by apply String.eqb_neq. }
  assert (negb (port =? 0)%Z = bool_decide (port ≠ 0%Z)) as ->.
  { case_bool_decide as Hc.
    - apply negb_true_iff. by apply Z.eqb_neq.
    - apply negb_false_iff. apply Z.eqb_eq. by destruct (decide (port = 0%Z)). }
  case_match; [|done].
  destruct (listen 0%Z); [done|].
  by rewrite Z.eqb_refl, andb_false_r.
Qed.

Lemma startServer_bind_error_witness :
  let listen := λ port : Z,
    if (port =? 3000)%Z then ErrorEvent "EADDRINUSE" else Listening 49152 in
  fst <$> startServer 2 true None listen 3000 [] = Some (Serving 49152).
Proof.
  intros listen.
  apply (startServer_bind_error 0 true None listen 3000%Z "EADDRINUSE" []).
  reflexivity.
Defined.

(** *** The registry and the transport objects stay consistent *)

Lemma get_heap useOAuth req hr st :
  heap (out_state (mcpGetHandler useOAuth req hr st)) = heap st.
Proof.
  unfold mcpGetHandler, handleRequest. repeat (case_match; simpl; try done).
Qed.

Lemma delete_heap req hr st :
  heap (out_state (mcpDeleteHandler req hr st)) = heap st.
Proof.
  unfold mcpDeleteHandler, handleRequest. repeat (case_match; simpl; try done).
Qed.

(** A POST request allocates at most one transport, without a session
    id. *)
Lemma post_heap useOAuth req connect hr st :
  heap (out_state (mcpPostHandler useOAuth req connect hr st)) = heap st ∨
  heap (out_state (mcpPostHandler useOAuth req connect hr st)) =
    heap st ++ [ {| sessionId := None; isClosed := false; eventStore := ∅ |} ].
Proof.
  unfold mcpPostHandler, post_catch, new_transport, handleRequest.
  repeat (case_match; simpl; try (by left); try (by right)); simplify_eq;
    simpl; try (by left); try (by right).
Qed.

Lemma issued_false st sid :
  issued st sid = false →
  ∀ h t, heap st !! h = Some t → sessionId t ≠ Some sid.
Proof.
  unfold issued. intros Hex h t Ht Hsid.
  assert (existsb (λ t, bool_decide (sessionId t = Some sid)) (heap st) = true) as Hyes.
  { apply existsb_exists. exists t. split.
    - apply list_elem_of_In. by eapply list_elem_of_lookup_2.
    - by apply bool_decide_eq_true. }
  congruence.
Qed.

Lemma is_live_spec st sid h :
  is_live st sid h = true ↔
  ∃ t, heap st !! h = Some t ∧ sessionId t = Some sid ∧ isClosed t = false.
Proof.
  unfold is_live. split.
  - destruct (heap st !! h) as [t|]; [|done]. intros H.
    apply andb_true_iff in H as [H1 H2]. apply bool_decide_eq_true in H1.
    apply negb_true_iff in H2. eauto.
  - intros (t & -> & H1 & H2). rewrite H2. simpl.
    rewrite andb_true_r. by apply bool_decide_eq_true.
Qed.

Lemma consistent_init : consistent init.
Proof. split; simpl; intros *; by rewrite ?lookup_empty, ?lookup_nil. Qed.

Lemma consistent_same st st' :
  transports st' = transports st → heap st' = heap st →
  consistent st → consistent st'.
Proof.
  intros Ht Hh [H1 H2 H3 H4]. split.
  - intros sid h. rewrite Ht. intros Hreg. apply H1 in Hreg.
    unfold is_live in *. by rewrite Hh.
  - intros *. rewrite Hh. apply H2.
  - intros *. rewrite Hh. apply H3.
  - intros *. rewrite Hh. apply H4.
Qed.

(** Storing a message changes the event store of one transport and nothing
    else. *)
Lemma store_message_heap h streamId payload st h0 t :
  heap (store_message h streamId payload st) !! h0 = Some t →
  ∃ t0, heap st !! h0 = Some t0 ∧ sessionId t0 = sessionId t ∧
        isClosed t0 = isClosed t.
Proof.
  unfold store_message. destruct (heap st !! h) as [u|] eqn:Hu; [|by eauto].
  cbn [heap set_heap]. destruct (decide (h0 = h)) as [->|Hne].
  - rewrite list_lookup_insert_eq by (by eapply lookup_lt_Some).
    intros [= <-]. by exists u.
  - rewrite list_lookup_insert_ne by done. eauto.
Qed.

Lemma store_message_heap_2 h streamId payload st h0 t0 :
  heap st !! h0 = Some t0 →
  ∃ t, heap (store_message h streamId payload st) !! h0 = Some t ∧
       sessionId t = sessionId t0 ∧ isClosed t = isClosed t0.
Proof.
  intros Ht0. unfold store_message. destruct (heap st !! h) as [u|] eqn:Hu; [|by eauto].
  cbn [heap set_heap]. destruct (decide (h0 = h)) as [->|Hne].
  - rewrite list_lookup_insert_eq by (by eapply lookup_lt_Some).
    rewrite Ht0 in Hu. injection Hu as <-. by eexists.
  - rewrite list_lookup_insert_ne by done. eauto.
Qed.

Lemma consistent_stored useOAuth st h streamId payload :
  consistent st → consistent (step useOAuth st (MessageStored h streamId payload)).
Proof.
  cbn [step]. intros [H1 H2 H3 H4].
  destruct (store_message_transports h streamId payload st) as (Ht & _ & _).
  split.
  - intros sid h0. rewrite Ht. intros Hreg. apply H1 in Hreg.
    apply is_live_spec in Hreg as (t0 & Hl & Hid & Hc).
    destruct (store_message_heap_2 h streamId payload st h0 t0 Hl) as (t & Hl' & Hid' & Hc').
    apply is_live_spec. exists t. split_and!; [done|congruence|congruence].
  - intros h1 h2 t1 t2 sid Hl1 Hl2 Hs1 Hs2.
    apply store_message_heap in Hl1 as (u1 & Hu1 & Hi1 & _).
    apply store_message_heap in Hl2 as (u2 & Hu2 & Hi2 & _).
    eapply (H2 h1 h2 u1 u2 sid); congruence.
  - intros h0 t Hl. apply store_message_heap in Hl as (u & Hu & Hi & _).
    rewrite <- Hi. by eapply H3.
  - intros h0 t sid Hl Hid. apply store_message_heap in Hl as (u & Hu & Hi & _).
    eapply (H4 h0 u); [done|congruence].
Qed.

Lemma consistent_alloc st st' :
  transports st' = transports st →
  heap st' = heap st ++ [ {| sessionId := None; isClosed := false; eventStore := ∅ |} ] →
  consistent st → consistent st'.
Proof.
  intros Ht Hh [H1 H2 H3 H4].
  assert (Hold : ∀ h t, heap st' !! h = Some t → sessionId t ≠ None →
                        heap st !! h = Some t).
  { intros h t. rewrite Hh. intros Hl Hid.
    apply lookup_app_Some in Hl as [Hl|[_ Hl]]; [done|].
    apply list_lookup_singleton_Some in Hl as [_ <-]. done. }
  split.
  - intros sid h. rewrite Ht. intros Hreg. apply H1 in Hreg.
    apply is_live_spec in Hreg as (t & Hl & Hid & Hc).
    apply is_live_spec. exists t. rewrite Hh.
    split; [|done]. by apply lookup_app_l_Some.
  - intros h1 h2 t1 t2 sid Hl1 Hl2 Hs1 Hs2.
    apply Hold in Hl1; [|congruence]. apply Hold in Hl2; [|congruence]. eauto.
  - intros h t Hl Hid. apply Hold in Hl; [|congruence]. by eapply H3.
  - intros h t sid Hl Hid. apply Hold in Hl; [|congruence]. by eapply H4.
Qed.

Lemma consistent_initialized useOAuth st h sid :
  sdk_ok st (SessionInitialized h sid) = true →
  consistent st → consistent (step useOAuth st (SessionInitialized h sid)).
Proof.
  simpl. intros Hok [H1 H2 H3 H4].
  apply andb_true_iff in Hok as [Hok Hh].
  apply andb_true_iff in Hok as [Hok Hfresh].
  apply andb_true_iff in Hok as [Hne Hplain].
  apply negb_true_iff in Hne, Hfresh, Hplain. apply String.eqb_neq in Hne.
  pose proof (issued_false st sid Hfresh) as Hnew.
  destruct (heap st !! h) as [t|] eqn:Ht; [|done].
  apply andb_true_iff in Hh as [Hnone Hopen].
  apply bool_decide_eq_true in Hnone. apply negb_true_iff in Hopen.
  assert (Hlt : h < length (heap st)) by by eapply lookup_lt_Some.
  set (t' := {| sessionId := Some sid; isClosed := isClosed t;
                eventStore := eventStore t |}).
  assert (Hlook : ∀ h0 t0, <[h := t']> (heap st) !! h0 = Some t0 →
            (h0 = h ∧ t0 = t') ∨ (h0 ≠ h ∧ heap st !! h0 = Some t0)).
  { intros h0 t0 Hl. destruct (decide (h0 = h)) as [->|Hneq].
    - rewrite list_lookup_insert_eq in Hl by done. left. by simplify_eq.
    - rewrite list_lookup_insert_ne in Hl by done. by right. }
  set (st' := onsessioninitialized h sid _).
  assert (Hheap : heap st' = <[h := t']> (heap st)) by done.
  assert (Htr : transports st' = <[sid := h]> (transports st)) by done.
  clearbody st'. split.
  - intros sid0 h0. rewrite Htr. intros Hreg.
    apply is_live_spec. rewrite Hheap.
    destruct (decide (sid0 = sid)) as [->|Hsid].
    + rewrite lookup_insert_eq in Hreg. simplify_eq.
      exists t'. by rewrite list_lookup_insert_eq.
    + rewrite lookup_insert_ne in Hreg by done.
      apply H1 in Hreg. apply is_live_spec in Hreg as (t0 & Hl & Hid & Hc).
      exists t0. split; [|done].
      rewrite list_lookup_insert_ne; [done|]. intros ->. congruence.
  - intros h1 h2 t1 t2 sid0. rewrite Hheap. intros Hl1 Hl2 Hs1 Hs2.
    apply Hlook in Hl1 as [[-> ->]|[Hn1 Hl1]];
      apply Hlook in Hl2 as [[-> ->]|[Hn2 Hl2]]; [done| | |by eauto].
    + simpl in Hs1. simplify_eq. by destruct (Hnew h2 t2).
    + simpl in Hs2. simplify_eq. by destruct (Hnew h1 t1).
  - intros h0 t0. rewrite Hheap. intros Hl.
    apply Hlook in Hl as [[-> ->]|[_ Hl]].
    + simpl. congruence.
    + by eapply H3.
  - intros h0 t0 sid0. rewrite Hheap. intros Hl Hid.
    apply Hlook in Hl as [[-> ->]|[_ Hl]].
    + simpl in Hid. by injection Hid as <-.
    + by eapply H4.
Qed.

(** Closing a transport changes neither the session id of any object nor
    any registry entry of another object. *)
Lemma sdk_close_heap h st h0 :
  heap (sdk_close h st) !! h0 ≫= sessionId = heap st !! h0 ≫= sessionId ∧
  (h0 ≠ h → heap (sdk_close h st) !! h0 = heap st !! h0).
Proof.
  assert (Hoc : ∀ st', heap (onclose h st') = heap st').
  { intros st'. unfold onclose. by case_match. }
  unfold sdk_close. rewrite Hoc.
  destruct (heap st !! h) as [t|] eqn:Ht; [|done]. cbn [heap set_heap].
  assert (Hlt : h < length (heap st)) by by eapply lookup_lt_Some.
  split.
  - destruct (decide (h0 = h)) as [->|Hne].
    + rewrite list_lookup_insert_eq by done. by rewrite Ht.
    + by rewrite list_lookup_insert_ne.
  - intros Hne. by rewrite list_lookup_insert_ne.
Qed.

Lemma sdk_close_closed h st t :
  heap st !! h = Some t →
  heap (sdk_close h st) !! h =
    Some {| sessionId := sessionId t; isClosed := true; eventStore := eventStore t |}.
Proof.
  intros Ht.
  assert (Hoc : ∀ st', heap (onclose h st') = heap st').
  { intros st'. unfold onclose. by case_match. }
  unfold sdk_close. rewrite Hoc, Ht. cbn [heap set_heap].
  apply list_lookup_insert_eq. by eapply lookup_lt_Some.
Qed.

(** The registry after transport [h] has closed: the entry of its own
    session id, if there is one, is gone. *)
Lemma sdk_close_registry h st :
  transports (sdk_close h st) =
  if truthy (heap st !! h ≫= sessionId)
  then delete (str (heap st !! h ≫= sessionId)) (transports st)
  else transports st.
Proof.
  destruct (sdk_close_transports h st) as [-> _]. unfold onclose.
  change (mbind (λ t, sessionId t) (heap st !! h)) with (heap st !! h ≫= sessionId).
  destruct (truthy (heap st !! h ≫= sessionId)); [|done]. cbn [andb].
  unfold read.
  destruct (transports st !! str (heap st !! h ≫= sessionId)) eqn:Hreg; [done|].
  destruct (inherits _); [done|]. cbn [defined]. by rewrite delete_id.
Qed.

Lemma consistent_closed useOAuth st h :
  consistent st → consistent (step useOAuth st (TransportClosed h)).
Proof.
  simpl. intros [H1 H2 H3 H4]. split.
  - intros sid0 h0 Hreg. rewrite sdk_close_registry in Hreg.
    assert (Hold : transports st !! sid0 = Some h0).
    { case_match; [|done]. by apply lookup_delete_Some in Hreg as [_ ?]. }
    pose proof (H1 _ _ Hold) as Hlive.
    apply is_live_spec in Hlive as (t0 & Hl & Hid & Hc).
    destruct (decide (h0 = h)) as [->|Hne].
    + exfalso. rewrite Hl in Hreg. simpl in Hreg. rewrite Hid in Hreg.
      simpl in Hreg.
      assert (sid0 ≠ "") as Hsid by (intros ->; by eapply H3).
      apply String.eqb_neq in Hsid. rewrite Hsid in Hreg. simpl in Hreg.
      by rewrite lookup_delete_eq in Hreg.
    + apply is_live_spec. exists t0. split; [|done].
      destruct (sdk_close_heap h st h0) as [_ Hsame]. by rewrite Hsame.
  - intros h1 h2 t1 t2 sid Hl1 Hl2 Hs1 Hs2.
    destruct (sdk_close_heap h st h1) as [Hi1 _].
    destruct (sdk_close_heap h st h2) as [Hi2 _].
    rewrite Hl1 in Hi1. rewrite Hl2 in Hi2. simpl in Hi1, Hi2.
    destruct (heap st !! h1) as [u1|] eqn:Hu1; [|by rewrite Hs1 in Hi1].
    destruct (heap st !! h2) as [u2|] eqn:Hu2; [|by rewrite Hs2 in Hi2].
    simpl in Hi1, Hi2. eapply (H2 h1 h2 u1 u2 sid); congruence.
  - intros h0 t0 Hl Hid.
    destruct (sdk_close_heap h st h0) as [Hi _].
    rewrite Hl in Hi. simpl in Hi.
    destruct (heap st !! h0) as [u|] eqn:Hu; [|by rewrite Hid in Hi].
    simpl in Hi. eapply (H3 h0 u); [done|congruence].
  - intros h0 t0 sid Hl Hid.
    destruct (sdk_close_heap h st h0) as [Hi _].
    rewrite Hl in Hi. simpl in Hi.
    destruct (heap st !! h0) as [u|] eqn:Hu; [|by rewrite Hid in Hi].
    simpl in Hi. eapply (H4 h0 u); [done|congruence].
Qed.

Lemma step_consistent useOAuth st ev :
  sdk_ok st ev = true → consistent st → consistent (step useOAuth st ev).
Proof.
  intros Hok Hst.
  destruct ev as [req connect hr|req hr|req hr|h sid|h|h streamId payload].
  - simpl. destruct (post_heap useOAuth req connect hr st) as [Hh|Hh].
    + eapply consistent_same; [apply post_transports|done|done].
    + eapply consistent_alloc; [apply post_transports|done|done].
  - simpl. eapply consistent_same; [apply get_transports|apply get_heap|done].
  - simpl. eapply consistent_same; [apply delete_transports|apply delete_heap|done].
  - by apply consistent_initialized.
  - by apply consistent_closed.
  - by apply consistent_stored.
Qed.

Lemma sdk_trace_app useOAuth st evs1 evs2 :
  sdk_trace useOAuth st (evs1 ++ evs2) =
  sdk_trace useOAuth st evs1 && sdk_trace useOAuth (run useOAuth st evs1) evs2.
Proof.
  revert st. induction evs1 as [|ev evs1 IH]; intros st; [done|].
  simpl. by rewrite IH, andb_assoc.
Qed.

Lemma run_consistent useOAuth st evs :
  sdk_trace useOAuth st evs = true → consistent st →
  consistent (run useOAuth st evs).
Proof.
  revert st. induction evs as [|ev evs IH]; intros st Htr Hst; [done|].
  simpl in *. apply andb_true_iff in Htr as [Hok Htr].
  apply IH; [done|]. by apply step_consistent.
Qed.

(** *** Closed sessions *)

Lemma is_closed_spec st sid h :
  is_closed st sid h = true ↔
  ∃ t, heap st !! h = Some t ∧ sessionId t = Some sid ∧ isClosed t = true.
Proof.
  unfold is_closed. split.
  - destruct (heap st !! h) as [t|]; [|done]. intros H.
    apply andb_true_iff in H as [H1 H2]. apply bool_decide_eq_true in H1. eauto.
  - intros (t & -> & H1 & H2). rewrite H2, andb_true_r.
    by apply bool_decide_eq_true.
Qed.

(** A closed transport stays closed and keeps its session id. *)
Lemma step_is_closed useOAuth st ev sid h :
  sdk_ok st ev = true →
  is_closed st sid h = true → is_closed (step useOAuth st ev) sid h = true.
Proof.
  intros Hok Hc. apply is_closed_spec in Hc as (t & Hl & Hid & Hcl).
  apply is_closed_spec.
  destruct ev as [req connect hr|req hr|req hr|h' sid'|h'|h' streamId payload]; simpl.
  - destruct (post_heap useOAuth req connect hr st) as [->| ->]; [by eauto|].
    exists t. split; [|done]. by apply lookup_app_l_Some.
  - rewrite get_heap. eauto.
  - rewrite delete_heap. eauto.
  - simpl in Hok. destruct (heap st !! h') as [t'|] eqn:Hl'.
    + cbn [heap onsessioninitialized assign set_heap console_write].
      exists t. split; [|done]. rewrite list_lookup_insert_ne; [done|].
      intros ->. rewrite Hl in Hl'. simplify_eq.
      apply andb_true_iff in Hok as [_ Hok].
      apply andb_true_iff in Hok as [Hnone _].
      apply bool_decide_eq_true in Hnone. congruence.
    + by rewrite andb_false_r in Hok.
  - destruct (decide (h = h')) as [<-|Hne].
    + rewrite (sdk_close_closed h st t Hl). eauto.
    + destruct (sdk_close_heap h' st h) as [_ Hsame].
      rewrite Hsame by done. eauto.
  - destruct (store_message_heap_2 h' streamId payload st h t Hl) as (t' & ? & ? & ?).
    exists t'. split_and!; [done|congruence|congruence].
Qed.

Lemma run_is_closed useOAuth st evs sid h :
  sdk_trace useOAuth st evs = true →
  is_closed st sid h = true → is_closed (run useOAuth st evs) sid h = true.
Proof.
  revert st. induction evs as [|ev evs IH]; intros st Htr Hc; [done|].
  simpl in *. apply andb_true_iff in Htr as [Hok Htr].
  apply IH; [done|]. by apply step_is_closed.
Qed.

Lemma live_unique st sid h1 h2 :
  consistent st →
  is_live st sid h1 = true → is_live st sid h2 = true → h1 = h2.
Proof.
  intros [_ H2 _ _] Hl1 Hl2.
  apply is_live_spec in Hl1 as (t1 & Ht1 & Hs1 & _).
  apply is_live_spec in Hl2 as (t2 & Ht2 & Hs2 & _). eauto.
Qed.

Lemma closed_absent st sid h :
  consistent st → is_closed st sid h = true →
  sid ≠ "" ∧ transports st !! sid = None ∧ (∀ h', is_live st sid h' = false) ∧
  inherits sid = false.
Proof.
  intros [H1 H2 H3 H4] Hc. apply is_closed_spec in Hc as (t & Hl & Hid & Hcl).
  assert (Hdead : ∀ h', is_live st sid h' = false).
  { intros h'. destruct (is_live st sid h') eqn:Hlive; [|done].
    apply is_live_spec in Hlive as (t' & Hl' & Hid' & Hopen).
    assert (h' = h) as -> by eauto. congruence. }
  split_and!; [| |done|by eapply H4].
  - intros ->. by eapply H3.
  - destruct (transports st !! sid) as [h0|] eqn:Hreg; [|done].
    apply H1 in Hreg. by rewrite Hdead in Hreg.
Qed.

(** C4: on a server whose transports get their session ids from the SDK
    (generated once per transport by [randomUUID]: non-empty, never issued
    twice, never the name of an inherited property), at any
    time no two open transports carry the same session id and an id in
    [transports] resolves to the open transport that carries it; and once a
    transport with session id [sid] has closed, [sid] is out of [transports]
    for good: whatever happens later, no open transport carries [sid], and
    a POST, GET or DELETE request that bears [sid] is answered 400 without
    any transport being created or called and with [transports] unchanged. *)
Theorem closed_session_never_revived (useOAuth : bool) (evs1 evs2 : list Event) :
  sdk_trace useOAuth init (evs1 ++ evs2) = true →
  let st1 := run useOAuth init evs1 in
  let st := run useOAuth init (evs1 ++ evs2) in
  (∀ sid h1 h2, is_live st sid h1 = true → is_live st sid h2 = true → h1 = h2) ∧
  (∀ sid h, transports st !! sid = Some h → is_live st sid h = true) ∧
  ∀ sid h, is_closed st1 sid h = true →
    transports st !! sid = None ∧
    (∀ h', is_live st sid h' = false) ∧
    ∀ req connect hr, mcp_session_id req = Some sid →
      let post := mcpPostHandler useOAuth req connect hr st in
      out_res post = Sent 400 (Json bad_request) ∧ out_calls post = [] ∧
      heap (out_state post) = heap st ∧
      transports (out_state post) = transports st ∧
      mcpGetHandler useOAuth req hr st =
        {| out_state := st; out_res := Sent 400 (Text "Invalid or missing session ID");
           out_calls := []; out_rejected := None |} ∧
      mcpDeleteHandler req hr st =
        {| out_state := st; out_res := Sent 400 (Text "Invalid or missing session ID");
           out_calls := []; out_rejected := None |}.
Proof.
  intros Htr st1 st.
  assert (Hcons : consistent st).
  { apply run_consistent; [done|apply consistent_init]. }
  rewrite sdk_trace_app in Htr. apply andb_true_iff in Htr as [Htr1 Htr2].
  split_and!.
  - intros sid h1 h2. by apply live_unique.
  - apply Hcons.
  - intros sid h Hc.
    assert (Hc' : is_closed st sid h = true).
    { subst st. unfold run. rewrite foldl_app. by apply run_is_closed. }
    destruct (closed_absent st sid h Hcons Hc') as (Hne & Hnone & Hdead & Hplain).
    split_and!; [done|done|]. intros req connect hr Hreq post.
    assert (Hread : read st (mcp_session_id req) = Undefined).
    { rewrite Hreq. by apply read_undefined. }
    assert (Hres : passes_guard st req = false).
    { apply guard_fails. by right. }
    destruct (post_invalid useOAuth req connect hr st) as (Hpost & Ht & Hh).
    { right. rewrite Hreq in *. split; [by apply truthy_nonempty|done]. }
    subst post.
    split_and!; [by rewrite Hpost|by rewrite Hpost|done|done| |].
    + by apply get_invalid.
    + by apply delete_invalid.
Qed.

Lemma closed_session_never_revived_witness :
  let init_req := {| mcp_session_id := None; last_event_id := None;
                     req_body := "initialize"; isInitializeRequest := true;
                     auth := None |} in
  let ok := {| aw_headersSent := true; aw_throws := None |} in
  let req := {| mcp_session_id := Some "s1"; last_event_id := None;
                req_body := "tools/call"; isInitializeRequest := false;
                auth := None |} in
  let evs1 := [Post init_req None ok; SessionInitialized 0 "s1";
               Post req None ok; Delete req ok; TransportClosed 0] in
  let evs2 := [Post init_req None ok; SessionInitialized 1 "s2"] in
  out_res (mcpPostHandler false req None ok (run false init (evs1 ++ evs2)))
    = Sent 400 (Json bad_request) ∧
  is_live (run false init (evs1 ++ evs2)) "s2" 1 = true.
Proof.
  intros init_req ok req evs1 evs2.
  destruct (closed_session_never_revived false evs1 evs2) as (_ & _ & H).
  - reflexivity.
  - destruct (H "s1" 0) as (_ & _ & Hreq); [reflexivity|].
    destruct (Hreq req None ok) as (Hpost & _); [reflexivity|].
    split; [exact Hpost | reflexivity].
Defined.

(** *** SIGINT *)

(** C5, as stated, fails: [close()] is awaited without any timeout. With
    two registered sessions whose [close()] never settles, the handler stays
    suspended in the first iteration: one close is attempted instead of two
    and the process does not exit. *)
Lemma sigint_waits_for_unsettled_close :
  let init_req := {| mcp_session_id := None; last_event_id := None;
                     req_body := "initialize"; isInitializeRequest := true;
                     auth := None |} in
  let ok := {| aw_headersSent := true; aw_throws := None |} in
  let st := run false init
    [Post init_req None ok; SessionInitialized 0 "s1";
     Post init_req None ok; SessionInitialized 1 "s2"] in
  let r := sigint (λ _, {| cl_closes := false; cl_settle := Pending |}) st in
  size (transports st) = 2 ∧ length (sd_calls r) = 1 ∧ sd_exit r = None.
Proof. by vm_compute. Qed.

(** [for ... in] visits every own key once. *)
Lemma ownKeys_perm (created : list string) : ownKeys created ≡ₚ created.
Proof.
  unfold ownKeys. rewrite merge_sort_Permutation.
  apply (filter_app_complement (λ k, is_Some (array_index k))).
Qed.

Lemma keys_ok_init : keys_ok init.
Proof.
  split; [constructor|]. intros k. cbn. rewrite lookup_empty. split.
  - intros H. by apply elem_of_nil in H.
  - by intros [? ?].
Qed.

Lemma keys_ok_same st st' :
  transports st' = transports st → keys st' = keys st → keys_ok st → keys_ok st'.
Proof. unfold keys_ok. by intros -> ->. Qed.

Lemma keys_ok_assign k h st : keys_ok st → keys_ok (assign k h st).
Proof.
  intros [Hnd Hin]. unfold keys_ok, assign. cbn [keys transports].
  case_bool_decide as Hown.
  - split; [done|]. intros k'. rewrite Hin.
    destruct (decide (k' = k)) as [->|Hne].
    + by rewrite lookup_insert_eq.
    + by rewrite lookup_insert_ne.
  - split.
    + apply NoDup_app. split_and!; [done| |apply NoDup_singleton].
      intros k' Hk' ->%list_elem_of_singleton. by apply Hown, Hin.
    + intros k'. rewrite elem_of_app, list_elem_of_singleton, Hin.
      destruct (decide (k' = k)) as [->|Hne].
      * rewrite lookup_insert_eq. split; eauto.
      * rewrite lookup_insert_ne by done. split; [by intros [|]|eauto].
Qed.

Lemma keys_ok_remove k st : keys_ok st → keys_ok (remove k st).
Proof.
  intros [Hnd Hin]. unfold keys_ok, remove. cbn [keys transports]. split.
  - by apply NoDup_filter.
  - intros k'. rewrite list_elem_of_filter, Hin.
    destruct (decide (k' = k)) as [->|Hne].
    + rewrite lookup_delete_eq. split; [by intros [? _]|by intros [? ?]].
    + rewrite lookup_delete_ne by done. split; [by intros [_ ?]|done].
Qed.

Lemma keys_ok_onclose h st : keys_ok st → keys_ok (onclose h st).
Proof.
  intros Hok. unfold onclose. case_match; [|done].
  apply keys_ok_remove. by apply (keys_ok_same st).
Qed.

Lemma keys_ok_sdk_close h st : keys_ok st → keys_ok (sdk_close h st).
Proof.
  intros Hok. unfold sdk_close. apply keys_ok_onclose.
  destruct (heap st !! h); [by apply (keys_ok_same st)|done].
Qed.

Lemma keys_ok_step useOAuth st ev : keys_ok st → keys_ok (step useOAuth st ev).
Proof.
  intros Hok.
  destruct ev as [req connect hr|req hr|req hr|h sid|h|h streamId payload]; cbn [step].
  - apply (keys_ok_same st); [apply post_transports|apply post_keys|done].
  - apply (keys_ok_same st); [apply get_transports|apply get_keys|done].
  - apply (keys_ok_same st); [apply delete_transports|apply delete_keys|done].
  - unfold onsessioninitialized. apply keys_ok_assign.
    apply (keys_ok_same st); [by destruct (heap st !! h)..|done].
  - by apply keys_ok_sdk_close.
  - destruct (store_message_transports h streamId payload st) as (? & ? & _).
    by apply (keys_ok_same st).
Qed.

Lemma keys_ok_run useOAuth st evs : keys_ok st → keys_ok (run useOAuth st evs).
Proof.
  revert st. induction evs as [|ev evs IH]; intros st Hok; [done|].
  simpl. apply IH. by apply keys_ok_step.
Qed.

(** What the loop of the SIGINT handler goes through: the entries of the
    registry, each once, in the order of [for ... in]. *)
Lemma for_in_entries st :
  keys_ok st →
  ∃ kvs : list (string * handle),
    kvs = entries st ∧
    kvs.*1 = ownKeys (keys st) ∧ NoDup kvs.*1 ∧
    (∀ k h, (k, h) ∈ kvs ↔ transports st !! k = Some h) ∧
    kvs ≡ₚ map_to_list (transports st).
Proof.
  intros [Hnd Hin].
  set (entry := λ k : string, (k, default 0 (transports st !! k))).
  exists (entry <$> ownKeys (keys st)). split; [done|].
  assert (Hfst : (entry <$> ownKeys (keys st)).*1 = ownKeys (keys st)).
  { rewrite <- list_fmap_compose. apply list_fmap_id. }
  assert (Hnd' : NoDup (entry <$> ownKeys (keys st)).*1).
  { rewrite Hfst, ownKeys_perm. done. }
  assert (Hiff : ∀ k h, (k, h) ∈ entry <$> ownKeys (keys st)
                        ↔ transports st !! k = Some h).
  { intros k h. rewrite list_elem_of_fmap. split.
    - intros (k' & [= -> ->] & Hk'). rewrite ownKeys_perm in Hk'.
      apply Hin in Hk' as [h' Hh']. by rewrite Hh'.
    - intros Hreg. exists k. split; [unfold entry; by rewrite Hreg|].
      rewrite ownKeys_perm. apply Hin. eauto. }
  split_and!; [done|done|done|].
  apply NoDup_Permutation.
  - by eapply NoDup_fmap_1.
  - apply NoDup_map_to_list.
  - intros [k h]. by rewrite Hiff, elem_of_map_to_list.
Qed.

Lemma sdk_close_console h st line :
  line ∈ console st → line ∈ console (sdk_close h st).
Proof.
  intros Hin. unfold sdk_close, onclose.
  destruct (heap st !! h); case_match; simpl; try done;
    apply elem_of_app; by left.
Qed.

Lemma consistent_keyed st : consistent st → keyed st.
Proof.
  intros [H1 _ _] k h Hreg. apply H1 in Hreg.
  apply is_live_spec in Hreg as (t & -> & Hid & _). done.
Qed.

(** One iteration of the loop leaves the other entries of the registry and
    the session ids of all objects as they are. *)
Lemma sdk_close_frame h k st :
  keyed st → transports st !! k = Some h →
  keyed (sdk_close h st) ∧
  (∀ k', k' ≠ k → transports (sdk_close h st) !! k' = transports st !! k') ∧
  (∀ k' h', transports (sdk_close h st) !! k' = Some h' →
            transports st !! k' = Some h').
Proof.
  intros Hkey Hreg.
  assert (Hsub : ∀ k' h', transports (sdk_close h st) !! k' = Some h' →
                          transports st !! k' = Some h').
  { intros k' h'. rewrite sdk_close_registry. case_match; [|done].
    intros Hl. by apply lookup_delete_Some in Hl as [_ ?]. }
  split_and!; [| |done].
  - intros k' h' Hl. destruct (sdk_close_heap h st h') as [-> _]. eauto.
  - intros k' Hne. rewrite sdk_close_registry, (Hkey _ _ Hreg). simpl.
    case_match; [|done]. by rewrite lookup_delete_ne.
Qed.

Lemma closeAll_settles close (kvs : list (string * handle)) :
  (∀ h, cl_settle (close h) ≠ Pending) →
  NoDup kvs.*1 →
  ∀ calls st,
    keyed st →
    (∀ k h, (k, h) ∈ kvs → transports st !! k = Some h) →
    ∃ st', closeAll close kvs.*1 calls st = (st', calls ++ (Close <$> kvs.*2), true) ∧
      (∀ line, line ∈ console st → line ∈ console st') ∧
      (∀ k h e, (k, h) ∈ kvs → cl_settle (close h) = Rejected e →
         {| level := ERROR;
            args := ["Error closing transport for session " +:+ k +:+ ":"; e] |}
           ∈ console st').
Proof.
  intros Hsettle. induction kvs as [|[k h] kvs IH]; intros Hnd calls st Hkey Hreg.
  { exists st. simpl. rewrite app_nil_r. split_and!; [done|done|].
    intros k h e Hin. by apply elem_of_nil in Hin. }
  apply NoDup_cons in Hnd as [Hk Hnd]. cbn [fmap list_fmap fst snd closeAll].
  rewrite (Hreg k h) by apply list_elem_of_here.
  set (st1 := console_write LOG ["Closing transport for session " +:+ k] st).
  set (st2 := if cl_closes (close h) then sdk_close h st1 else st1).
  assert (Hkey1 : keyed st1) by done.
  assert (Hreg1 : transports st1 !! k = Some h) by (apply Hreg; apply list_elem_of_here).
  assert (H2 : keyed st2 ∧
               (∀ k', k' ≠ k → transports st2 !! k' = transports st !! k') ∧
               (∀ k' h', transports st2 !! k' = Some h' → transports st !! k' = Some h') ∧
               (∀ line, line ∈ console st → line ∈ console st2)).
  { subst st2. destruct (cl_closes (close h)).
    - destruct (sdk_close_frame h k st1 Hkey1 Hreg1) as (? & ? & ?).
      split_and!; [done|done|done|].
      intros line Hin. apply sdk_close_console. apply elem_of_app. by left.
    - split_and!; [done|done|done|].
      intros line Hin. apply elem_of_app. by left. }
  destruct H2 as (Hkey2 & Hother2 & Hsub2 & Hcons2).
  assert (Hrest : ∀ k' h', (k', h') ∈ kvs → k' ≠ k).
  { intros k' h' Hin ->. apply Hk. apply list_elem_of_fmap. by exists (k, h'). }
  destruct (cl_settle (close h)) as [|e|] eqn:Hs; [| |by destruct (Hsettle h)].
  - (* fulfilled: delete transports[sessionId] *)
    destruct (IH Hnd (calls ++ [Close h]) (remove k st2))
      as (st' & Heq & Hcons & Herr).
    + intros k' h' Hl. cbn [transports remove heap] in *.
      apply lookup_delete_Some in Hl as [_ Hl]. by apply Hkey2.
    + intros k' h' Hin. cbn [transports remove].
      rewrite lookup_delete_ne by (intros <-; by eapply Hrest).
      rewrite Hother2 by by eapply Hrest.
      apply Hreg. by apply list_elem_of_further.
    + exists st'. rewrite Heq, <- app_assoc. split_and!; [done| |].
      * intros line Hin. apply Hcons. cbn [console remove]. by apply Hcons2.
      * intros k' h' e Hin Hrej. apply elem_of_cons in Hin as [Heq'|Hin].
        -- injection Heq' as -> ->. congruence.
        -- by eapply Herr.
  - (* rejected: the catch block logs the error *)
    destruct (IH Hnd (calls ++ [Close h])
                (console_write ERROR
                   ["Error closing transport for session " +:+ k +:+ ":"; e] st2))
      as (st' & Heq & Hcons & Herr).
    + done.
    + intros k' h' Hin. cbn [transports console_write].
      rewrite Hother2 by by eapply Hrest.
      apply Hreg. by apply list_elem_of_further.
    + exists st'. rewrite Heq, <- app_assoc. split_and!; [done| |].
      * intros line Hin. apply Hcons. cbn [console console_write].
        apply elem_of_app. left. by apply Hcons2.
      * intros k' h' e' Hin Hrej. apply elem_of_cons in Hin as [Heq'|Hin].
        -- injection Heq' as -> ->. rewrite Hs in Hrej. injection Hrej as <-.
           apply Hcons. cbn [console console_write].
           apply elem_of_app. right. apply list_elem_of_here.
        -- by eapply Herr.
Qed.

(** C5 (amended): on SIGINT the handler goes through the session ids
    registered in [transports] and awaits [close()] of each transport in
    turn, with no timeout. Provided every [close()] settles, each of the N
    registered sessions gets exactly one close attempt, a close that
    rejects is logged with its session id and does not stop the loop, and
    the process exits with status 0, however many closes failed. *)
Theorem sigint_closes_every_session (useOAuth : bool) (evs : list Event)
    (close : handle → CloseResult) :
  sdk_trace useOAuth init evs = true →
  (∀ h, cl_settle (close h) ≠ Pending) →
  let st := run useOAuth init evs in
  let r := sigint close st in
  sd_exit r = Some 0%Z ∧
  sd_calls r ≡ₚ (λ kv, Close kv.2) <$> map_to_list (transports st) ∧
  length (sd_calls r) = size (transports st) ∧
  (∀ sid h e, transports st !! sid = Some h → cl_settle (close h) = Rejected e →
     {| level := ERROR;
        args := ["Error closing transport for session " +:+ sid +:+ ":"; e] |}
       ∈ console (sd_state r)) ∧
  last (console (sd_state r))
    = Some {| level := LOG; args := ["Server shutdown complete"] |}.
Proof.
  intros Htr Hsettle st r.
  assert (Hkey : keyed st).
  { apply consistent_keyed, run_consistent; [done|apply consistent_init]. }
  destruct (for_in_entries st) as (kvs & _ & Hfst & Hnd & Hiff & Hperm).
  { apply keys_ok_run, keys_ok_init. }
  subst r. unfold sigint.
  set (st0 := console_write LOG ["Shutting down server..."] st).
  change (keys st0) with (keys st). rewrite <- Hfst.
  destruct (closeAll_settles close kvs Hsettle Hnd [] st0)
    as (st' & Heq & Hcons & Herr).
  { done. }
  { intros k h Hin. by apply Hiff. }
  rewrite Heq. cbn [sd_exit sd_calls sd_state app].
  assert (Hcalls : Close <$> kvs.*2
                   ≡ₚ (λ kv, Close kv.2) <$> map_to_list (transports st)).
  { rewrite <- list_fmap_compose. by rewrite Hperm. }
  split_and!.
  - done.
  - done.
  - by rewrite Hcalls, length_fmap, length_map_to_list.
  - intros sid h e Hreg Hrej. cbn [console console_write].
    apply elem_of_app. left. eapply Herr; [|done]. by apply Hiff.
  - cbn [console console_write]. apply last_snoc.
Qed.

Lemma sigint_closes_every_session_witness :
  let init_req := {| mcp_session_id := None; last_event_id := None;
                     req_body := "initialize"; isInitializeRequest := true;
                     auth := None |} in
  let ok := {| aw_headersSent := true; aw_throws := None |} in
  let evs := [Post init_req None ok; SessionInitialized 0 "s1";
              Post init_req None ok; SessionInitialized 1 "s2"] in
  let close := λ h : handle,
    if (h =? 0)%nat then {| cl_closes := false; cl_settle := Rejected "busy" |}
    else {| cl_closes := true; cl_settle := Fulfilled |} in
  sd_exit (sigint close (run false init evs)) = Some 0%Z ∧
  length (sd_calls (sigint close (run false init evs))) = 2.
Proof.
  intros init_req ok evs close.
  destruct (sigint_closes_every_session false evs close) as (Hexit & _ & Hlen & _).
  - reflexivity.
  - intros h. unfold close. by destruct (h =? 0)%nat.
  - split; [exact Hexit|]. rewrite Hlen. reflexivity.
Defined.

End ServerFacts.

(** ** Reopening a stream *)

Module ReplayFacts.
Import Js Server EventStore EventStoreFacts.

(** A GET request that bears the id of a registered session is handed to
    the transport of that session, with its headers, after the header
    [last-event-id] has been logged. *)
Lemma get_routes useOAuth req hr st sid h :
  sid ≠ "" → mcp_session_id req = Some sid → transports st !! sid = Some h →
  out_calls (mcpGetHandler useOAuth req hr st) = [HandleRequest h req] ∧
  out_res (mcpGetHandler useOAuth req hr st) = await_res hr Unsent ∧
  transports (out_state (mcpGetHandler useOAuth req hr st)) = transports st ∧
  (∀ lastEventId, last_event_id req = Some lastEventId → lastEventId ≠ "" →
     last (console (out_state (mcpGetHandler useOAuth req hr st)))
       = Some {| level := LOG;
                 args := ["Client reconnecting with Last-Event-ID: " +:+ lastEventId] |}).
Proof.
  intros Hne Hreq Hreg.
  assert (Hread : ∀ st', transports st' = transports st →
                         read st' (mcp_session_id req) = Own h).
  { intros st' Hst'. apply ServerFacts.read_own. by rewrite Hst', Hreq. }
  split_and!; [| |apply ServerFacts.get_transports|].
  - unfold mcpGetHandler. rewrite (Hread st eq_refl), Hreq.
    rewrite (ServerFacts.truthy_nonempty sid Hne). cbn [negb orb defined].
    rewrite <- Hreq, Hread; [done|]. by repeat case_match.
  - unfold mcpGetHandler. rewrite (Hread st eq_refl), Hreq.
    rewrite (ServerFacts.truthy_nonempty sid Hne). cbn [negb orb defined].
    rewrite <- Hreq, Hread; [done|]. by repeat case_match.
  - intros v Hv Hvne. unfold mcpGetHandler. rewrite (Hread st eq_refl), Hreq.
    rewrite (ServerFacts.truthy_nonempty sid Hne). cbn [negb orb defined].
    rewrite <- Hreq, Hread by (by repeat case_match).
    cbn [handleRequest out_state]. rewrite Hv.
    rewrite (ServerFacts.truthy_nonempty v Hvne).
    cbn [console console_write str default]. apply last_snoc.
Qed.

(** *** The event stores of the transports *)

Lemma stores_wf_init : stores_wf init.
Proof.
  intros h t streamId log Hl. change (heap init) with (@nil Transport) in Hl.
  by rewrite lookup_nil in Hl.
Qed.

Lemma stores_wf_same st st' : heap st' = heap st → stores_wf st → stores_wf st'.
Proof. unfold stores_wf. by intros ->. Qed.

(** Replacing an object by one with the same event store. *)
Lemma stores_wf_insert st h t t' :
  heap st !! h = Some t → eventStore t' = eventStore t →
  stores_wf st → stores_wf (set_heap (<[h := t']> (heap st)) st).
Proof.
  intros Ht Hstore Hwf h0 t0 streamId log. cbn [heap set_heap].
  destruct (decide (h0 = h)) as [->|Hne].
  - rewrite list_lookup_insert_eq by (by eapply lookup_lt_Some).
    intros [= <-]. rewrite Hstore. by apply (Hwf h t).
  - rewrite list_lookup_insert_ne by done. apply Hwf.
Qed.

Lemma append_wf streamId payload (s : gmap string (list event)) :
  (∀ k log, s !! k = Some log → wf_log log) →
  ∀ k log, (append streamId payload s).1 !! k = Some log → wf_log log.
Proof.
  intros Hwf k log. unfold append. cbn [fst].
  destruct (decide (k = streamId)) as [->|Hne].
  - rewrite lookup_insert_eq. intros [= <-]. apply wf_log_snoc.
    destruct (s !! streamId) as [l|] eqn:Hl; [by eapply Hwf|done].
  - rewrite lookup_insert_ne by done. apply Hwf.
Qed.

(** Every transport starts with an empty store ([new_transport]) and its
    store grows by [append] only, so the cursors of each stream are 1..n. *)
Lemma step_stores_wf useOAuth st ev :
  stores_wf st → stores_wf (Server.step useOAuth st ev).
Proof.
  intros Hwf.
  destruct ev as [req connect hr|req hr|req hr|h sid|h|h streamId payload];
    cbn [Server.step].
  - destruct (ServerFacts.post_heap useOAuth req connect hr st) as [Hh|Hh].
    + by apply (stores_wf_same st).
    + intros h0 t0 streamId log. rewrite Hh. intros Hl.
      apply lookup_app_Some in Hl as [Hl|[_ Hl]]; [by apply (Hwf h0 t0)|].
      apply list_lookup_singleton_Some in Hl as [_ <-]. cbn. by rewrite lookup_empty.
  - apply (stores_wf_same st); [apply ServerFacts.get_heap|done].
  - apply (stores_wf_same st); [apply ServerFacts.delete_heap|done].
  - unfold onsessioninitialized.
    destruct (heap st !! h) as [t|] eqn:Ht.
    + apply (stores_wf_same (set_heap (<[h := {| sessionId := Some sid;
               isClosed := isClosed t; eventStore := eventStore t |}]> (heap st)) st));
        [done|]. by apply (stores_wf_insert st h t).
    + by apply (stores_wf_same st).
  - unfold sdk_close.
    assert (Hoc : ∀ st', heap (onclose h st') = heap st').
    { intros st'. unfold onclose. by case_match. }
    destruct (heap st !! h) as [t|] eqn:Ht.
    + eapply stores_wf_same; [apply Hoc|]. by apply (stores_wf_insert st h t).
    + eapply stores_wf_same; [apply Hoc|done].
  - unfold store_message. destruct (heap st !! h) as [t|] eqn:Ht; [|done].
    intros h0 t0 k log. cbn [heap set_heap].
    destruct (decide (h0 = h)) as [->|Hne].
    + rewrite list_lookup_insert_eq by (by eapply lookup_lt_Some).
      intros [= <-]. cbn [eventStore]. apply append_wf.
      intros k' log' Hl'. by apply (Hwf h t k' log').
    + rewrite list_lookup_insert_ne by done. apply Hwf.
Qed.

Lemma run_stores_wf useOAuth st evs :
  stores_wf st → stores_wf (Server.run useOAuth st evs).
Proof.
  revert st. induction evs as [|ev evs IH]; intros st Hwf; [done|].
  simpl. apply IH. by apply step_stores_wf.
Qed.

Lemma store_of_wf st h streamId log :
  stores_wf st → store_of st h !! streamId = Some log → wf_log log.
Proof.
  unfold store_of. intros Hwf. destruct (heap st !! h) as [t|] eqn:Ht; cbn.
  - by apply (Hwf h t).
  - by rewrite lookup_empty.
Qed.

(** C1: on the running server (its callbacks run by the SDK as its
    contract says), take a session [sid] registered to transport [h], a stream of the event store that [h] was created with,
    holding the events [log], and a GET request that bears [sid] and a
    last-event-id header that reads as the cursor [k <= n]. The log holds the
    cursors 1..n; the handler logs the header as that of a reconnecting
    client and hands the request, header included, to [h] and to nothing
    else; the reopen then starts with exactly the events k+1..n
    pending, in order; and however appends (to this or other streams) and
    deliveries interleave afterwards, what the sink has received followed
    by what is still pending is always the events k+1..n followed by the
    events appended since, with consecutive cursors from k+1 on: nothing
    twice, nothing skipped. Once the pending events are delivered the sink
    holds exactly that sequence. *)
Theorem replay_correctness (useOAuth : bool) (evs : list Event) (req : Request)
    (hr : Await) (sid : string) (h : handle) (streamId : string)
    (log : list event) (k : nat) (acts : list action) :
  let st := Server.run useOAuth init evs in
  sdk_trace useOAuth init evs = true →
  mcp_session_id req = Some sid → transports st !! sid = Some h →
  store_of st h !! streamId = Some log →
  last_event_id req ≫= cursor_of = Some k → k ≤ length log →
  let o := mcpGetHandler useOAuth req hr st in
  out_calls o = [HandleRequest h req] ∧
  (∃ lastEventId, last_event_id req = Some lastEventId ∧
     last (console (out_state o))
       = Some {| level := LOG;
                 args := ["Client reconnecting with Last-Event-ID: " +:+ lastEventId] |}) ∧
  wf_log log ∧
  ∃ snk,
    reopen (out_state o) h req streamId = Some snk ∧
    delivered snk = [] ∧ backlog snk = drop k log ∧
    map ev_cursor (backlog snk) = seq (S k) (length log - k) ∧
    let r := run acts {| store := store_of (out_state o) h;
                         stream := streamId; out := snk |} in
    ∃ live,
      log_of r = log ++ live ∧ wf_log (log_of r) ∧
      delivered (out r) ++ pending r = drop k log ++ live ∧
      map ev_cursor (delivered (out r) ++ pending r)
        = seq (S k) (length log + length live - k) ∧
      let r' := run (replicate (length (pending r)) Deliver) r in
      delivered (out r') = drop k log ++ live ∧ pending r' = [] ∧
      log_of r' = log_of r.
Proof.
  intros st Htr Hreq Hreg Hs Hcur Hk o.
  assert (Hne : sid ≠ "").
  { assert (Hcons : consistent st).
    { apply ServerFacts.run_consistent; [done|apply ServerFacts.consistent_init]. }
    pose proof (registered_live st Hcons sid h Hreg) as Hlive.
    apply ServerFacts.is_live_spec in Hlive as (t & Ht & Hid & _).
    intros ->. by eapply (ids_nonempty st Hcons). }
  assert (Hwf : wf_log log).
  { apply (store_of_wf st h streamId); [|done].
    apply run_stores_wf, stores_wf_init. }
  assert (Hstore : store_of (out_state o) h = store_of st h).
  { unfold store_of. subst o. by rewrite ServerFacts.get_heap. }
  destruct (get_routes useOAuth req hr st sid h Hne Hreq Hreg) as (Hcalls & _ & _ & Hline).
  split; [done|].
  destruct (last_event_id req) as [v|] eqn:Hv; [|done]. cbn [mbind option_bind] in Hcur.
  split.
  { exists v. split; [done|]. apply Hline; [done|]. by intros ->. }
  split; [done|].
  rewrite Hstore. unfold reopen. rewrite Hstore, Hv.
  rewrite Hcur. cbn [mbind option_bind].
  unfold replayFrom. rewrite Hs. eexists. split; [done|]. cbn [delivered backlog].
  rewrite after_cursor_drop by done.
  split_and!; [done|done|by apply cursors_drop|].
  set (r := run acts _).
  assert (Hinv : replay_inv log k r).
  { apply run_inv; [done|]. split.
    - unfold log_of. simpl. by rewrite Hs.
    - exists []. unfold log_of. simpl. by rewrite Hs, app_nil_r.
    - unfold log_of, pending. simpl. by rewrite Hs, app_nil_r. }
  destruct Hinv as [Hwf' [live Hlive] Hsink].
  exists live. rewrite Hsink, Hlive.
  assert (Hdrop : drop k (log ++ live) = drop k log ++ live).
  { by rewrite drop_app_le. }
  destruct (drain r) as (Hd & Hp & Hst & Hstr).
  split_and!.
  - done.
  - by rewrite <- Hlive.
  - done.
  - rewrite <- Hlive, cursors_drop by done.
    by rewrite Hlive, length_app.
  - by rewrite Hd, Hsink, Hlive.
  - done.
  - unfold log_of. by rewrite Hst, Hstr.
Qed.

Lemma replay_correctness_witness :
  let e := λ c p, {| ev_cursor := c; ev_payload := p |} in
  let evs :=
    [ Post {| mcp_session_id := None; last_event_id := None;
              req_body := "initialize"; isInitializeRequest := true;
              auth := None |} None
           {| aw_headersSent := true; aw_throws := None |};
      SessionInitialized 0 "S1";
      MessageStored 0 "stream-1" "a"; MessageStored 0 "stream-1" "b";
      MessageStored 0 "stream-1" "c"; MessageStored 0 "stream-1" "d";
      MessageStored 0 "stream-1" "e" ] in
  let st := Server.run false init evs in
  let req := {| mcp_session_id := Some "S1"; last_event_id := Some "3";
                req_body := ""; isInitializeRequest := false; auth := None |} in
  let hr := {| aw_headersSent := true; aw_throws := None |} in
  let acts := [Deliver; Append "stream-1" "f"; Append "other" "x"; Deliver] in
  out_calls (mcpGetHandler false req hr st) = [HandleRequest 0 req] ∧
  ∃ snk, reopen (out_state (mcpGetHandler false req hr st)) 0 req "stream-1" = Some snk ∧
    backlog snk = [e 4 "d"; e 5 "e"] ∧
    delivered (out (run (acts ++ [Deliver])
                      {| store := store_of st 0; stream := "stream-1"; out := snk |}))
      = [e 4 "d"; e 5 "e"; e 6 "f"].
Proof.
  intros e evs st req hr acts.
  destruct (replay_correctness false evs req hr "S1" 0 "stream-1"
              [e 1 "a"; e 2 "b"; e 3 "c"; e 4 "d"; e 5 "e"] 3 acts)
    as (Hget & _ & _ & snk & Hsnk & _ & Hback & _).
  - reflexivity.
  - reflexivity.
  - by vm_compute.
  - by vm_compute.
  - by vm_compute.
  - simpl. lia.
  - split; [exact Hget|]. exists snk. split; [exact Hsnk|]. split; [exact Hback|].
    vm_compute in Hsnk. injection Hsnk as <-. by vm_compute.
Defined.

End ReplayFacts.

(** ** More on the notes file *)

Module NotesMore.
Import Js Notes.

Lemma last_rev (l : ustring) : last (rev l) = head l.
Proof. destruct l as [|c l]; [done|]. simpl. apply last_snoc. Qed.

Lemma head_rev (l : ustring) : head (rev l) = last l.
Proof. rewrite <- (rev_involutive l) at 2. symmetry. apply last_rev. Qed.

Lemma forallb_rev (P : N → bool) (l : ustring) :
  forallb P l = true → forallb P (rev l) = true.
Proof.
  rewrite !forallb_forall. intros H x Hx. apply H. by apply in_rev.
Qed.

(** [trimStart] drops a prefix made of white space and stops at the first
    code unit that is none. *)
Lemma trimStart_prefix s :
  ∃ l, s = l ++ trimStart s ∧ forallb isWhiteSpace l = true.
Proof.
  induction s as [|c s (l & Hs & Hl)]; [by exists []|]. simpl.
  destruct (isWhiteSpace c) eqn:Hc.
  - exists (c :: l). simpl. rewrite Hc, Hl. split; [by f_equal|done].
  - by exists [].
Qed.

Lemma trimStart_clean s c : head (trimStart s) = Some c → isWhiteSpace c = false.
Proof.
  induction s as [|d s IH]; simpl; [done|].
  destruct (isWhiteSpace d) eqn:Hd; [done|]. simpl. by intros [= <-].
Qed.

Lemma trim_split s :
  ∃ l r, s = l ++ trim s ++ r ∧
         forallb isWhiteSpace l = true ∧ forallb isWhiteSpace r = true.
Proof.
  destruct (trimStart_prefix s) as (l & Hs & Hl).
  destruct (trimStart_prefix (rev (trimStart s))) as (r & Hr & Hwr).
  exists l, (rev r). split_and!; [|done|by apply forallb_rev].
  rewrite Hs at 1. f_equal. unfold trim, trimEnd.
  rewrite <- rev_app_distr, <- Hr. by rewrite rev_involutive.
Qed.

Lemma trim_clean s c :
  head (trim s) = Some c ∨ last (trim s) = Some c → isWhiteSpace c = false.
Proof.
  unfold trim, trimEnd. intros [H|H].
  - rewrite head_rev in H.
    destruct (trimStart_prefix (rev (trimStart s))) as (r & Hr & _).
    assert (Hlast : last (rev (trimStart s)) = Some c).
    { rewrite Hr, last_app, H. done. }
    rewrite last_rev in Hlast. by eapply trimStart_clean.
  - rewrite last_rev in H. by eapply trimStart_clean.
Qed.

(** X1: what [appendNote] stores of a text that is not blank is the text
    without the white space around it: the text is white space, the note,
    white space; the note neither starts nor ends with white space; and,
    when the file can be read and written, the file afterwards holds the
    content [ensureNotesFile] left, the separating newline if needed, the
    note and a newline, each as the utf8 encoding keeps it. *)
Theorem appendNote_stores_trimmed (text : ustring) (f : file) :
  trim text ≠ [] → readable f = true → writable f = true →
  let note := trim text in
  (∃ l r, text = l ++ note ++ r ∧
          forallb isWhiteSpace l = true ∧ forallb isWhiteSpace r = true) ∧
  (∀ c, head note = Some c ∨ last note = Some c → isWhiteSpace c = false) ∧
  let existing := default (DEFAULT_NOTES ++ newline) (stored f) in
  let separator :=
    if bool_decide (existing ≠ []) && negb (endsWithNewline existing)
    then newline else [] in
  appendNote text f =
    ({| stored := Some (toWellFormed existing ++ separator ++
                        toWellFormed note ++ newline);
        readable := true; writable := true |}, true).
Proof.
  intros Hnote Hr Hw note. split_and!; [apply trim_split|apply trim_clean|].
  intros existing separator. subst separator existing.
  rewrite NotesFacts.appendNote_eq by auto. cbv zeta.
  rewrite bool_decide_eq_false_2 by done. rewrite Hw.
  by rewrite (NotesFacts.toWellFormed_note _ (trim text)).
Qed.

Lemma appendNote_stores_trimmed_witness :
  appendNote (lit "  tej " ++ newline)
    {| stored := Some (lit "kenyer"); readable := true; writable := true |}
  = ({| stored := Some (lit "kenyer" ++ newline ++ lit "tej" ++ newline);
        readable := true; writable := true |}, true).
Proof.
  destruct (appendNote_stores_trimmed (lit "  tej " ++ newline)
              {| stored := Some (lit "kenyer"); readable := true; writable := true |})
    as (_ & _ & Happ).
  - by vm_compute.
  - reflexivity.
  - reflexivity.
  - rewrite Happ. reflexivity.
Defined.

(** *** A run of appends *)

Lemma endsWithNewline_snoc (s : ustring) : endsWithNewline (s ++ newline) = true.
Proof. unfold endsWithNewline, newline. by rewrite last_snoc. Qed.

(** [appendNote] on a file that is there and can be read and written. *)
Lemma appendNote_readable (text c : ustring) :
  appendNote text {| stored := Some c; readable := true; writable := true |} =
  ({| stored := Some (
        if bool_decide (trim text = []) then c
        else toWellFormed c ++
             (if bool_decide (c ≠ []) && negb (endsWithNewline c)
              then newline else []) ++
             toWellFormed (trim text) ++ newline);
      readable := true; writable := true |}, true).
Proof.
  rewrite NotesFacts.appendNote_eq by auto. cbv zeta. cbn [stored writable].
  change (default (DEFAULT_NOTES ++ newline) (Some c)) with c.
  case_bool_decide; [done|].
  do 3 f_equal. exact (NotesFacts.toWellFormed_note c (trim text)).
Qed.

(** On a file that is empty or ends with a newline, and holds what utf8
    can store, no separator is ever written, and the file stays that way. *)
Lemma appendNotes_terminated (texts : list ustring) (c : ustring) :
  c = [] ∨ endsWithNewline c = true → toWellFormed c = c →
  appendNotes texts {| stored := Some c; readable := true; writable := true |} =
  ({| stored := Some (c ++ concat (map (λ n, toWellFormed n ++ newline)
                                     (filter (λ n, n ≠ []) (map trim texts))));
      readable := true; writable := true |}, true).
Proof.
  revert c. induction texts as [|text texts IH]; intros c Hc Hwf.
  { simpl. by rewrite app_nil_r. }
  cbn [appendNotes map]. rewrite appendNote_readable.
  destruct (decide (trim text = [])) as [Hblank|Hblank].
  - rewrite (bool_decide_eq_true_2 (trim text = [])) by done.
    rewrite filter_cons_False by (intros H; by apply H). by rewrite IH.
  - rewrite (bool_decide_eq_false_2 (trim text = [])) by done.
    rewrite filter_cons_True by done. cbn [map concat].
    match goal with
    | |- context [if ?b then newline else []] => assert (Hsep : b = false)
    end.
    { destruct Hc as [-> | ->]; [done|by rewrite andb_false_r]. }
    rewrite Hsep, Hwf. cbn [app]. rewrite IH.
    + by rewrite <- !app_assoc.
    + right. rewrite app_assoc. apply endsWithNewline_snoc.
    + pose proof (NotesFacts.toWellFormed_note c (toWellFormed (trim text))) as Hn.
      cbv zeta in Hn.
      match type of Hn with
      | context [if ?b then newline else []] =>
          replace b with false in Hn by exact (eq_sym Hsep)
      end.
      cbn [app] in Hn. by rewrite Hn, Hwf, NotesFacts.toWellFormed_idemp.
Qed.

Lemma appendNotes_readable (texts : list ustring) (c : ustring) :
  let kept := filter (λ n, n ≠ []) (map trim texts) in
  let separator :=
    if bool_decide (c ≠ []) && negb (endsWithNewline c) then newline else [] in
  appendNotes texts {| stored := Some c; readable := true; writable := true |} =
  ({| stored := Some (
        if bool_decide (kept = []) then c
        else toWellFormed c ++ separator ++
             concat (map (λ n, toWellFormed n ++ newline) kept));
      readable := true; writable := true |}, true).
Proof.
  cbv zeta. induction texts as [|text texts IH]; [done|].
  cbn [appendNotes map]. rewrite appendNote_readable. cbv beta iota.
  destruct (decide (trim text = [])) as [Hblank|Hblank].
  - rewrite (bool_decide_eq_true_2 (trim text = [])) by done.
    rewrite filter_cons_False by (intros H; by apply H). by rewrite IH.
  - rewrite (bool_decide_eq_false_2 (trim text = [])) by done.
    rewrite filter_cons_True by done. cbn [map concat].
    rewrite (bool_decide_eq_false_2 (_ :: _ = [])) by done.
    rewrite appendNotes_terminated.
    + by rewrite <- !app_assoc.
    + right. rewrite !app_assoc. apply endsWithNewline_snoc.
    + pose proof (NotesFacts.toWellFormed_note c (trim text)) as Hn.
      cbv zeta in Hn.
      match type of Hn with
      | ?l = _ =>
          match goal with
          | |- toWellFormed ?x = _ => replace x with l by exact Hn
          end
      end.
      apply NotesFacts.toWellFormed_idemp.
Qed.

(** X2: a run of [add_note] calls on a notes file that can be read and
    written appends the notes in the order of the calls, one per line: the
    file afterwards is the content [ensureNotesFile] left, followed by every
    text that is not blank in its trimmed form and with a newline behind it,
    each as the utf8 encoding keeps it; blank texts leave no trace, and a
    separating newline is written at most once, before the first note, when
    the previous content lacks its final newline. Every call is fulfilled,
    and a run without a call leaves the file alone. *)
Theorem appendNotes_spec (texts : list ustring) (f : file) :
  readable f = true → writable f = true →
  let existing := default (DEFAULT_NOTES ++ newline) (stored f) in
  let kept := filter (λ n, n ≠ []) (map trim texts) in
  let separator :=
    if bool_decide (existing ≠ []) && negb (endsWithNewline existing)
    then newline else [] in
  appendNotes texts f =
  (match texts with
   | [] => f
   | _ => {| stored := Some (
               if bool_decide (kept = []) then existing
               else toWellFormed existing ++ separator ++
                    concat (map (λ n, toWellFormed n ++ newline) kept));
             readable := true; writable := true |}
   end, true).
Proof.
  intros Hr Hw. destruct texts as [|text texts]; [done|].
  intros existing kept separator.
  assert (Hsame : appendNotes (text :: texts) f
                  = appendNotes (text :: texts)
                      {| stored := Some existing; readable := true; writable := true |}).
  { cbn [appendNotes]. rewrite !NotesFacts.appendNote_eq by auto.
    cbv zeta. cbn [stored default writable]. by rewrite Hw. }
  rewrite Hsame. apply appendNotes_readable.
Qed.

Lemma appendNotes_spec_witness :
  appendNotes [lit " tej "; [32%N]; [0xDC00%N]]
    {| stored := Some (lit "kenyer"); readable := true; writable := true |}
  = ({| stored := Some (lit "kenyer" ++ newline ++ lit "tej" ++ newline ++
                        [0xFFFD%N] ++ newline);
        readable := true; writable := true |}, true).
Proof.
  rewrite (appendNotes_spec [lit " tej "; [32%N]; [0xDC00%N]]
             {| stored := Some (lit "kenyer"); readable := true; writable := true |}
             eq_refl eq_refl).
  reflexivity.
Defined.

(** What [readNotes] gives for each state of the file. *)
Lemma readNotes_eq f :
  readNotes f =
  if readable f then
    match stored f with
    | Some c => (f, Some c)
    | None =>
        if writable f
        then ({| stored := Some (DEFAULT_NOTES ++ newline);
                 readable := true; writable := true |},
              Some (DEFAULT_NOTES ++ newline))
        else (f, None)
    end
  else if writable f
       then ({| stored := Some (DEFAULT_NOTES ++ newline);
                readable := false; writable := true |}, None)
       else (f, None).
Proof.
  unfold readNotes, ensureNotesFile, readFile, writeFile.
  destruct f as [[c|] [] []]; cbn [stored readable writable];
    by rewrite ?NotesFacts.toWellFormed_default.
Qed.

(** X3: reading the notes back. The resource callback answers exactly when
    the file can be read once [ensureNotesFile] has run: it is readable, and
    it is there or can be created; the answer is one content entry under
    the URI [notes://main-notes.txt] with the text of the file, the default
    notes for a file just created. A file that cannot be read but can be
    written is overwritten with the default notes although the callback
    then rejects. And on a file that can be read and written, what the
    resource returns after [add_note] is what it returned before, followed,
    for a note that is not blank, by the separating newline if needed, the
    trimmed note and a newline, as the utf8 encoding keeps them; the read
    leaves the file as [add_note] left it. *)
Theorem notes_resource_round_trip (text : ustring) (f : file) :
  let entry := λ notes, Some [ {| r_uri := lit "notes://main-notes.txt";
                                  r_text := notes |} ] in
  let before := default (DEFAULT_NOTES ++ newline) (stored f) in
  (main_notes_resource f).2 =
    (if readable f && (bool_decide (is_Some (stored f)) || writable f)
     then entry before else None) ∧
  (readable f = false → writable f = true →
   main_notes_resource f =
     ({| stored := Some (DEFAULT_NOTES ++ newline);
         readable := false; writable := true |}, None)) ∧
  (readable f = true → writable f = true →
   let f' := (add_note text f).1 in
   let separator :=
     if bool_decide (before ≠ []) && negb (endsWithNewline before)
     then newline else [] in
   main_notes_resource f' =
     (f', entry (if bool_decide (trim text = []) then before
                 else toWellFormed before ++ separator ++
                      toWellFormed (trim text) ++ newline))).
Proof.
  intros entry before. unfold main_notes_resource. split_and!.
  - rewrite readNotes_eq. subst before.
    by destruct f as [[c|] [] []].
  - intros Hr Hw. rewrite readNotes_eq, Hr, Hw. done.
  - intros Hr Hw. cbv zeta. unfold add_note.
    rewrite NotesFacts.appendNote_eq by auto. cbv zeta.
    cbn [fst]. rewrite readNotes_eq. cbn [stored readable writable mbind option_bind].
    subst entry before. case_bool_decide; [done|].
    do 5 f_equal. exact (NotesFacts.toWellFormed_note _ (trim text)).
Qed.

(** X21: the input schema of [add_note] does not keep blank notes out: a
    text of one or more white-space code units passes [min(1)], the tool
    answers with its success message around an empty quotation, and a
    readable notes file is left exactly as it was, whether or not it can be
    written. *)
Theorem blank_note_passes_schema (text c : ustring) (w : bool) :
  text ≠ [] → forallb isWhiteSpace text = true →
  let f := {| stored := Some c; readable := true; writable := w |} in
  add_note_schema text = true ∧
  add_note text f =
    (f, Some {| content :=
          [ {| c_type := "text";
               c_text := lit "Jegyzet hozzaadva: " ++ [34%N; 34%N] |} ] |}).
Proof.
  intros Hne Hblank f. apply NotesFacts.trim_nil in Hblank. split.
  - by destruct text.
  - unfold add_note. rewrite NotesFacts.appendNote_eq; [|done|right; by eauto].
    cbv zeta. rewrite Hblank. by rewrite bool_decide_eq_true_2.
Qed.

Lemma blank_note_passes_schema_witness :
  let f := {| stored := Some (lit "tej"); readable := true; writable := false |} in
  add_note_schema [32%N; 9%N] = true ∧
  (add_note [32%N; 9%N] f).1 = f.
Proof.
  intros f.
  destruct (blank_note_passes_schema [32%N; 9%N] (lit "tej") false) as [Hs Ha];
    [done|reflexivity|].
  split; [exact Hs|]. fold f in Ha. by rewrite Ha.
Defined.

End NotesMore.

(** ** The token verifier *)

Module AuthFacts.
Import Js Auth.

Lemma split_nonempty sep s : split sep s ≠ [].
Proof.
  destruct s as [|c s]; simpl; [done|].
  destruct (Ascii.eqb c sep); [done|]. by destruct (split sep s).
Qed.

(** Joining the pieces with the separator gives the string back. *)
Lemma split_join sep s : String.concat (String sep "") (split sep s) = s.
Proof.
  induction s as [|c s IH]; [done|]. simpl.
  destruct (Ascii.eqb_spec c sep) as [->|Hne].
  - pose proof (split_nonempty sep s) as Hs.
    destruct (split sep s) as [|piece pieces]; [done|].
    cbn [String.concat]. simpl. by rewrite <- IH.
  - pose proof (split_nonempty sep s) as Hs.
    destruct (split sep s) as [|piece pieces]; [done|].
    destruct pieces as [|piece' pieces]; simpl in *; by rewrite <- IH.
Qed.

(** No piece contains the separator. *)
Lemma split_pieces sep s piece :
  piece ∈ split sep s → ¬ In sep (String.list_ascii_of_string piece).
Proof.
  revert piece. induction s as [|c s IH]; intros piece; simpl.
  - intros Hin. apply list_elem_of_singleton in Hin as ->. simpl. tauto.
  - destruct (Ascii.eqb_spec c sep) as [->|Hne].
    + intros Hin. apply elem_of_cons in Hin as [->|Hin]; [simpl; tauto|by apply IH].
    + pose proof (split_nonempty sep s) as Hs.
      destruct (split sep s) as [|first pieces]; [done|].
      intros Hin. apply elem_of_cons in Hin as [->|Hin].
      * simpl. intros [Heq|Hin]; [done|].
        revert Hin. apply IH. apply list_elem_of_here.
      * apply IH. by apply list_elem_of_further.
Qed.

(** X4: [verifyAccessToken] fails closed. It returns a principal only when
    the metadata names an introspection endpoint, the POST to it succeeded
    with an ok status and the body parsed; the principal then carries the
    very token that was presented, with the client id and expiry the
    endpoint reported. Without an endpoint it throws before any request is
    made, and in no case does it make more than one request. *)
Theorem verifyAccessToken_fails_closed (endpoint : option string)
    (fetch : FetchCall → string + FetchResponse) (tok : string) :
  let call := {| fc_endpoint := default "" endpoint; fc_token := tok |} in
  let r := verifyAccessToken endpoint fetch tok in
  (truthy endpoint = false →
     r = (inl "No token verification endpoint available in metadata", [])) ∧
  (truthy endpoint = true → r.2 = [call]) ∧
  (∀ info, r.1 = inr info →
     truthy endpoint = true ∧
     token info = tok ∧
     ∃ response data,
       fetch call = inr response ∧ resp_ok response = true ∧
       resp_json response = inr data ∧
       clientId info = client_id data ∧ expiresAt info = exp data) ∧
  (∀ response, fetch call = inr response → resp_ok response = false →
     truthy endpoint = true →
     r.1 = inl ("Invalid or expired token: " +:+ default "null" (resp_text response))).
Proof.
  intros call r. subst r. unfold verifyAccessToken. fold call.
  destruct (truthy endpoint) eqn:Hep; simpl.
  - split; [done|]. split.
    { intros _. destruct (fetch call) as [e|resp]; [done|].
      destruct (resp_ok resp); simpl; [|done]. by destruct (resp_json resp). }
    split.
    + intros info Hinfo. split; [done|].
      destruct (fetch call) as [e|resp] eqn:Hfetch; [done|].
      destruct (resp_ok resp) eqn:Hok; simpl in Hinfo; [|done].
      destruct (resp_json resp) as [e|data] eqn:Hjson; [done|].
      simpl in Hinfo. injection Hinfo as <-. simpl. split; [done|].
      by exists resp, data.
    + intros resp -> Hok _. by rewrite Hok.
  - split_and!; [done|done| |done]. intros info Hinfo. done.
Qed.

Lemma verifyAccessToken_fails_closed_witness :
  let fetch := λ _ : FetchCall,
    inr {| resp_ok := false; resp_text := None; resp_json := inl "no body" |} in
  verifyAccessToken (Some "http://localhost:3001/introspect") fetch "t0"
  = (inl "Invalid or expired token: null",
     [ {| fc_endpoint := "http://localhost:3001/introspect"; fc_token := "t0" |} ]) ∧
  verifyAccessToken None fetch "t0"
  = (inl "No token verification endpoint available in metadata", []).
Proof.
  intros fetch.
  destruct (verifyAccessToken_fails_closed
              (Some "http://localhost:3001/introspect") fetch "t0")
    as (_ & Hcalls & _ & Herr).
  destruct (verifyAccessToken_fails_closed None fetch "t0") as (Hnone & _).
  split; [|by apply Hnone].
  pose proof (Herr _ eq_refl eq_refl eq_refl) as H1.
  pose proof (Hcalls eq_refl) as H2.
  destruct (verifyAccessToken _ fetch "t0") as [a b]. simpl in H1, H2.
  by rewrite H1, H2.
Defined.

(** X5: the scopes of the principal are the pieces of the reported scope
    string between its spaces: joined with single spaces they give the scope
    string back, none of them contains a space, and a missing or empty scope
    string gives no scopes at all (not one empty scope). *)
Theorem verifyAccessToken_scopes (endpoint : option string)
    (fetch : FetchCall → string + FetchResponse) (tok : string)
    (response : FetchResponse) (data : Introspection) :
  truthy endpoint = true →
  fetch {| fc_endpoint := default "" endpoint; fc_token := tok |} = inr response →
  resp_ok response = true → resp_json response = inr data →
  ∃ info,
    (verifyAccessToken endpoint fetch tok).1 = inr info ∧
    if truthy (scope data)
    then String.concat " " (scopes info) = default "" (scope data) ∧
         scopes info ≠ [] ∧
         ∀ s, s ∈ scopes info → ¬ In " "%char (String.list_ascii_of_string s)
    else scopes info = [].
Proof.
  intros Hep Hfetch Hok Hjson. unfold verifyAccessToken.
  rewrite Hep. simpl. rewrite Hfetch, Hok. simpl. rewrite Hjson.
  eexists. split; [done|]. simpl.
  destruct (truthy (scope data)); [|done].
  split_and!.
  - apply (split_join " "%char).
  - apply split_nonempty.
  - intros s. apply split_pieces.
Qed.

Lemma verifyAccessToken_scopes_witness :
  let data := {| client_id := Some "c1"; scope := Some "mcp:tools  admin";
                 exp := Some 1700000000%Z |} in
  let fetch := λ _ : FetchCall,
    inr {| resp_ok := true; resp_text := None; resp_json := inr data |} in
  ∃ info,
    (verifyAccessToken (Some "http://localhost:3001/introspect") fetch "t0").1
      = inr info ∧
    scopes info = ["mcp:tools"; ""; "admin"].
Proof.
  intros data fetch.
  destruct (verifyAccessToken_scopes (Some "http://localhost:3001/introspect")
              fetch "t0" _ data eq_refl eq_refl eq_refl eq_refl)
    as (info & Hinfo & _).
  exists info. split; [exact Hinfo|].
  vm_compute in Hinfo. by injection Hinfo as <-.
Defined.

End AuthFacts.

(** ** More on the session server *)

Module ServerMore.
Import Js Server ServerFacts.

(** *** The handlers on a session that resolves *)

(** X6: a POST request whose session resolves is handed to the registered
    transport of that session and to nothing else: no transport is created,
    none is connected, the registry stays as it is, and the answer is the
    transport's own unless it throws before sending headers, in which case it
    is the 500 error object. *)
Theorem post_reuses_transport (useOAuth : bool) (req : Request)
    (connect : option string) (hr : Await) (st : State) (h : handle) :
  truthy (mcp_session_id req) = true →
  lookup st (mcp_session_id req) = Some h →
  let o := mcpPostHandler useOAuth req connect hr st in
  out_calls o = [HandleRequest h req] ∧
  heap (out_state o) = heap st ∧
  transports (out_state o) = transports st ∧
  out_rejected o = None ∧
  out_res o =
    match aw_throws hr with
    | None => if aw_headersSent hr then SentBySdk else Unsent
    | Some _ => if aw_headersSent hr then SentBySdk
                else Sent 500 (Json internal_error)
    end.
Proof.
  intros Hid Hreg o. subst o. unfold mcpPostHandler.
  destruct (post_state_lookup useOAuth req st) as (Ht & Hh & Hread).
  cbv zeta in Ht, Hh, Hread. rewrite Hread.
  rewrite lookup_own in Hreg. rewrite (read_own _ _ h Hreg), Hid.
  cbn [andb defined handleRequest].
  unfold post_catch, await_res.
  destruct (aw_throws hr); destruct (aw_headersSent hr);
    destruct (useOAuth && _); by cbn.
Qed.

Lemma post_reuses_transport_witness :
  let st := run false init
    [ Post {| mcp_session_id := None; last_event_id := None;
              req_body := "initialize"; isInitializeRequest := true;
              auth := None |} None
           {| aw_headersSent := true; aw_throws := None |};
      SessionInitialized 0 "s1" ] in
  let req := {| mcp_session_id := Some "s1"; last_event_id := None;
                req_body := "tools/call"; isInitializeRequest := true;
                auth := None |} in
  let hr := {| aw_headersSent := true; aw_throws := None |} in
  out_calls (mcpPostHandler false req (Some "unused") hr st) = [HandleRequest 0 req] ∧
  heap (out_state (mcpPostHandler false req (Some "unused") hr st)) = heap st.
Proof.
  intros st req hr.
  destruct (post_reuses_transport false req (Some "unused") hr st 0)
    as (Hcalls & Hheap & _); [reflexivity|reflexivity|].
  split; [exact Hcalls | exact Hheap].
Defined.

(** X7: a POST initialization request without a session id creates exactly
    one transport, with no session id yet, and does not put it into the
    registry: that is left to the [onsessioninitialized] callback. The
    transport is connected before it is asked to handle the request, and when
    connecting fails it is never asked: the request is answered with the 500
    error object. *)
Theorem post_initializes (useOAuth : bool) (req : Request)
    (connect : option string) (hr : Await) (st : State) :
  truthy (mcp_session_id req) = false →
  isInitializeRequest req = true →
  let o := mcpPostHandler useOAuth req connect hr st in
  let h := length (heap st) in
  heap (out_state o)
    = heap st ++ [ {| sessionId := None; isClosed := false; eventStore := ∅ |} ] ∧
  transports (out_state o) = transports st ∧
  out_rejected o = None ∧
  match connect with
  | Some _ =>
      out_calls o = [Connect h] ∧ out_res o = Sent 500 (Json internal_error)
  | None =>
      out_calls o = [Connect h; HandleRequest h req] ∧
      out_res o =
        match aw_throws hr with
        | None => if aw_headersSent hr then SentBySdk else Unsent
        | Some _ => if aw_headersSent hr then SentBySdk
                    else Sent 500 (Json internal_error)
        end
  end.
Proof.
  intros Hid Hinit o h. subst o h. unfold mcpPostHandler.
  rewrite Hid, Hinit. cbn [andb negb].
  unfold new_transport, post_catch, await_res.
  destruct connect; destruct (aw_throws hr); destruct (aw_headersSent hr);
    destruct (useOAuth && _); by cbn.
Qed.

Lemma post_initializes_witness :
  let req := {| mcp_session_id := None; last_event_id := None;
                req_body := "initialize"; isInitializeRequest := true;
                auth := None |} in
  let o := mcpPostHandler true req (Some "connect failed")
             {| aw_headersSent := false; aw_throws := None |} init in
  out_calls o = [Connect 0] ∧ out_res o = Sent 500 (Json internal_error).
Proof.
  intros req o.
  destruct (post_initializes true req (Some "connect failed")
              {| aw_headersSent := false; aw_throws := None |} init)
    as (_ & _ & _ & H); [reflexivity|reflexivity|].
  exact H.
Defined.

(** X8: the GET handler has no [catch]: when the request passes the
    guard, an error thrown by the transport, or the [TypeError] of calling
    [handleRequest] on a value the registry only inherits, makes the handler
    itself fail with that error; nothing is logged as an error and no 500
    is written: the only answer the handler ever writes itself is the 400 of
    a request that fails the guard. The POST and DELETE handlers, in
    contrast, never fail. None of this changes the registry or the
    transports. *)
Theorem get_propagates_failure (useOAuth : bool) (req : Request)
    (connect : option string) (hr : Await) (st : State) :
  let o := mcpGetHandler useOAuth req hr st in
  out_rejected o =
    (if passes_guard st req
     then match read st (mcp_session_id req) with
          | Own _ => aw_throws hr
          | _ => Some "TypeError: transport.handleRequest is not a function"
          end
     else None) ∧
  (∀ status body, out_res o = Sent status body →
     status = 400 ∧ passes_guard st req = false) ∧
  (∃ added, console (out_state o) = console st ++ added ∧
            Forall (λ l, level l = LOG) added) ∧
  transports (out_state o) = transports st ∧ heap (out_state o) = heap st ∧
  out_rejected (mcpPostHandler useOAuth req connect hr st) = None ∧
  out_rejected (mcpDeleteHandler req hr st) = None.
Proof.
  intros o. subst o.
  assert (Hpost : out_rejected (mcpPostHandler useOAuth req connect hr st) = None).
  { unfold mcpPostHandler, post_catch, new_transport, handleRequest.
    repeat (case_match; simplify_eq; simpl; try done). }
  assert (Hdel : out_rejected (mcpDeleteHandler req hr st) = None).
  { unfold mcpDeleteHandler, handleRequest.
    repeat (case_match; simplify_eq; simpl; try done). }
  destruct (passes_guard st req) eqn:Hg.
  - unfold mcpGetHandler. unfold passes_guard in Hg.
    apply andb_true_iff in Hg as [Hid Hreg]. rewrite Hid, Hreg.
    cbn [negb orb].
    destruct (useOAuth && _); destruct (truthy (last_event_id req));
      rewrite ?read_console_write;
      destruct (read st (mcp_session_id req)); try done;
      cbn [handleRequest out_state out_res out_rejected console console_write
           transports heap aw_throws aw_headersSent];
      (split_and!;
       [ done
       | intros status body; unfold await_res; cbn; try done;
         by destruct (aw_headersSent hr)
       | eexists; (split; [by rewrite <- ?app_assoc|]); repeat constructor
       | done | done | done | done ]).
  - rewrite (get_invalid useOAuth req hr st Hg). cbn.
    split_and!; [done| |by exists []; rewrite app_nil_r|done|done|done|done].
    intros status body [= <- _]. done.
Qed.

(** X9: the DELETE handler on a session that resolves hands the request to
    the transport of that session and removes nothing itself: the registry
    entry stays until the transport's [onclose] runs. When the transport
    throws, the error is logged and the plain-text 500 answer is written
    exactly when no headers had been sent. *)
Theorem delete_on_session (req : Request) (hr : Await) (st : State) (h : handle) :
  truthy (mcp_session_id req) = true →
  lookup st (mcp_session_id req) = Some h →
  let o := mcpDeleteHandler req hr st in
  out_calls o = [HandleRequest h req] ∧
  transports (out_state o) = transports st ∧ heap (out_state o) = heap st ∧
  out_res o =
    match aw_throws hr with
    | None => if aw_headersSent hr then SentBySdk else Unsent
    | Some _ => if aw_headersSent hr then SentBySdk
                else Sent 500 (Text "Error processing session termination")
    end ∧
  ∀ error, aw_throws hr = Some error →
    last (console (out_state o))
      = Some {| level := ERROR;
                args := ["Error handling session termination:"; error] |}.
Proof.
  intros Hid Hreg o. subst o. unfold mcpDeleteHandler.
  rewrite lookup_own in Hreg.
  rewrite read_console_write, (read_own _ _ h Hreg), Hid.
  cbn [negb orb defined handleRequest].
  unfold await_res.
  destruct (aw_throws hr) as [e|]; destruct (aw_headersSent hr); cbn;
    (split_and!; [done|done|done|done|]); intros error [=]; subst;
    apply last_snoc.
Qed.

Lemma delete_on_session_witness :
  let st := run false init
    [ Post {| mcp_session_id := None; last_event_id := None;
              req_body := "initialize"; isInitializeRequest := true;
              auth := None |} None
           {| aw_headersSent := true; aw_throws := None |};
      SessionInitialized 0 "s1" ] in
  let req := {| mcp_session_id := Some "s1"; last_event_id := None;
                req_body := ""; isInitializeRequest := false; auth := None |} in
  let o := mcpDeleteHandler req {| aw_headersSent := false; aw_throws := Some "boom" |} st in
  out_res o = Sent 500 (Text "Error processing session termination") ∧
  transports (out_state o) !! "s1" = Some 0.
Proof.
  intros st req o.
  destruct (delete_on_session req {| aw_headersSent := false; aw_throws := Some "boom" |} st 0)
    as (_ & Ht & _ & Hres & _); [reflexivity|reflexivity|].
  split; [exact Hres|]. fold o in Ht. rewrite Ht. reflexivity.
Defined.

(** X23: a request whose session id names a property that the registry
    only inherits from [Object.prototype] (and that is no key of its own)
    passes the guard of all three handlers but reaches no transport: the
    call of [handleRequest] fails with a [TypeError]. No transport is
    created or called and the registry is left as it was; POST logs the
    error and answers with the 500 internal-error object, DELETE logs it and
    answers 500 in plain text, and the GET handler itself fails with the
    error, nothing written. *)
Theorem inherited_name_reaches_no_transport (useOAuth : bool) (req : Request)
    (connect : option string) (hr : Await) (st : State) :
  inherits (str (mcp_session_id req)) = true →
  transports st !! str (mcp_session_id req) = None →
  let post := mcpPostHandler useOAuth req connect hr st in
  let get := mcpGetHandler useOAuth req hr st in
  let del := mcpDeleteHandler req hr st in
  let raised := "TypeError: transport.handleRequest is not a function" in
  passes_guard st req = true ∧
  (out_calls post = [] ∧ out_res post = Sent 500 (Json internal_error) ∧
   last (console (out_state post))
     = Some {| level := ERROR; args := ["Error handling MCP request:"; raised] |}) ∧
  (out_calls get = [] ∧ out_res get = Unsent ∧ out_rejected get = Some raised) ∧
  (out_calls del = [] ∧
   out_res del = Sent 500 (Text "Error processing session termination") ∧
   last (console (out_state del))
     = Some {| level := ERROR;
               args := ["Error handling session termination:"; raised] |}) ∧
  Forall (λ o, transports (out_state o) = transports st ∧
               heap (out_state o) = heap st ∧ keys (out_state o) = keys st)
         [post; get; del].
Proof.
  intros Hin Hown post get del raised.
  assert (Hid : truthy (mcp_session_id req) = true).
  { destruct (mcp_session_id req) as [[|c v]|]; done. }
  assert (Hread : read st (mcp_session_id req) = Inherited (str (mcp_session_id req))).
  { unfold read. by rewrite Hown, Hin. }
  assert (Hg : passes_guard st req = true).
  { unfold passes_guard. by rewrite Hid, Hread. }
  split; [done|]. split_and!.
  - subst post. unfold mcpPostHandler.
    destruct (post_state_lookup useOAuth req st) as (_ & _ & Hr).
    cbv zeta in Hr. rewrite Hr, Hid, Hread. by destruct (useOAuth && _).
  - subst post. unfold mcpPostHandler.
    destruct (post_state_lookup useOAuth req st) as (_ & _ & Hr).
    cbv zeta in Hr. rewrite Hr, Hid, Hread. by destruct (useOAuth && _).
  - subst post. unfold mcpPostHandler.
    destruct (post_state_lookup useOAuth req st) as (_ & _ & Hr).
    cbv zeta in Hr. rewrite Hr, Hid, Hread. cbn [andb defined handleRequest].
    destruct (useOAuth && _); apply last_snoc.
  - subst get. unfold mcpGetHandler. rewrite Hid, Hread. cbn [negb orb defined].
    destruct (useOAuth && _); destruct (truthy (last_event_id req));
      by rewrite ?read_console_write, Hread.
  - subst get. unfold mcpGetHandler. rewrite Hid, Hread. cbn [negb orb defined].
    destruct (useOAuth && _); destruct (truthy (last_event_id req));
      by rewrite ?read_console_write, Hread.
  - subst get. unfold mcpGetHandler. rewrite Hid, Hread. cbn [negb orb defined].
    destruct (useOAuth && _); destruct (truthy (last_event_id req));
      by rewrite ?read_console_write, Hread.
  - subst del. unfold mcpDeleteHandler. rewrite Hid, Hread. cbn [negb orb defined].
    by rewrite read_console_write, Hread.
  - subst del. unfold mcpDeleteHandler. rewrite Hid, Hread. cbn [negb orb defined].
    by rewrite read_console_write, Hread.
  - subst del. unfold mcpDeleteHandler. rewrite Hid, Hread. cbn [negb orb defined].
    rewrite read_console_write, Hread. apply last_snoc.
  - repeat constructor; subst post get del;
      rewrite ?post_transports, ?get_transports, ?delete_transports,
        ?post_keys, ?get_keys, ?delete_keys, ?get_heap, ?delete_heap; try done.
    unfold mcpPostHandler.
    destruct (post_state_lookup useOAuth req st) as (_ & Hh & Hr).
    cbv zeta in Hh, Hr. rewrite Hr, Hid, Hread. rewrite Hid in Hh.
    cbn [andb defined handleRequest]. exact Hh.
Qed.

Lemma inherited_name_reaches_no_transport_witness :
  let req := {| mcp_session_id := Some "constructor"; last_event_id := None;
                req_body := "initialize"; isInitializeRequest := true;
                auth := None |} in
  let hr := {| aw_headersSent := true; aw_throws := None |} in
  out_res (mcpPostHandler false req None hr init) = Sent 500 (Json internal_error) ∧
  out_rejected (mcpGetHandler false req hr init)
    = Some "TypeError: transport.handleRequest is not a function".
Proof.
  intros req hr.
  destruct (inherited_name_reaches_no_transport false req None hr init)
    as (_ & (_ & Hpost & _) & (_ & _ & Hget) & _); [reflexivity|reflexivity|].
  split; [exact Hpost | exact Hget].
Defined.

(** X22: closing what is not there. The [onclose] callback of a transport
    whose session id is no key of [transports] (it was never registered, or
    is registered no longer) removes nothing and touches no transport; if
    the id is not the name of an inherited property either, the callback
    does nothing at all. For such an id a second [onclose] after the first
    changes nothing, whether or not the session was registered. A DELETE
    request whose session id is missing, or is neither a key of [transports]
    nor the name of an inherited property, leaves the state as it is, calls
    no transport and is answered with status 400 without the handler
    failing. *)
Theorem closing_absent_session_is_noop (h : handle) (req : Request) (hr : Await)
    (st : State) :
  let plain := ∀ sid, heap st !! h ≫= sessionId = Some sid → inherits sid = false in
  ((∀ sid, heap st !! h ≫= sessionId = Some sid → transports st !! sid = None) →
   transports (onclose h st) = transports st ∧ heap (onclose h st) = heap st ∧
   (plain → onclose h st = st)) ∧
  (plain → onclose h (onclose h st) = onclose h st) ∧
  (truthy (mcp_session_id req) = false ∨
   (transports st !! str (mcp_session_id req) = None ∧
    inherits (str (mcp_session_id req)) = false) →
   mcpDeleteHandler req hr st =
     {| out_state := st; out_res := Sent 400 (Text "Invalid or missing session ID");
        out_calls := []; out_rejected := None |}).
Proof.
  intros plain.
  assert (Hnoop : ∀ st', plain → heap st' = heap st →
            (∀ sid, heap st !! h ≫= sessionId = Some sid → transports st' !! sid = None) →
            onclose h st' = st').
  { intros st' Hplain Hh Habsent. apply onclose_noop. rewrite Hh. intros sid Hsid.
    apply read_undefined. split; [by apply Habsent|by apply Hplain]. }
  split_and!.
  - intros Habsent. destruct (onclose_keeps h st Habsent) as [? ?].
    split_and!; [done|done|]. intros Hplain. by apply Hnoop.
  - intros Hplain.
    destruct (truthy (heap st !! h ≫= sessionId) &&
              defined (read st (heap st !! h ≫= sessionId))) eqn:Hc.
    + apply Hnoop; [done| |].
      * unfold onclose. by case_match.
      * intros sid Hsid. unfold onclose.
        change (mbind (λ t, sessionId t) (heap st !! h)) with (heap st !! h ≫= sessionId).
        rewrite Hc, Hsid. cbn [transports remove console_write str default].
        apply lookup_delete_eq.
    + assert (Hst : onclose h st = st).
      { unfold onclose.
        change (mbind (λ t, sessionId t) (heap st !! h)) with (heap st !! h ≫= sessionId).
        by rewrite Hc. }
      by rewrite !Hst.
  - intros Hctx. apply delete_invalid, guard_fails.
    destruct Hctx as [?|?]; [by left|right]. by apply read_undefined.
Qed.

Lemma closing_absent_session_is_noop_witness :
  let st := run false init
    [ Post {| mcp_session_id := None; last_event_id := None;
              req_body := "initialize"; isInitializeRequest := true;
              auth := None |} None
           {| aw_headersSent := true; aw_throws := None |};
      SessionInitialized 0 "s1";
      TransportClosed 0 ] in
  let req := {| mcp_session_id := Some "s1"; last_event_id := None;
                req_body := ""; isInitializeRequest := false; auth := None |} in
  let hr := {| aw_headersSent := false; aw_throws := None |} in
  onclose 0 st = st ∧ out_state (mcpDeleteHandler req hr st) = st.
Proof.
  intros st req hr.
  destruct (closing_absent_session_is_noop 0 req hr st) as (H1 & _ & H2).
  split.
  - apply H1.
    + intros sid Hsid. vm_compute in Hsid. injection Hsid as <-. by vm_compute.
    + intros sid Hsid. vm_compute in Hsid. by injection Hsid as <-.
  - rewrite H2; [done|]. right. split; reflexivity.
Defined.

(** *** The life of a registry entry *)



Lemma run_snoc useOAuth st evs ev :
  run useOAuth st (evs ++ [ev]) = step useOAuth (run useOAuth st evs) ev.
Proof. unfold run. by rewrite foldl_app. Qed.

Lemma run_app useOAuth st evs1 evs2 :
  run useOAuth st (evs1 ++ evs2) = run useOAuth (run useOAuth st evs1) evs2.
Proof. unfold run. by rewrite foldl_app. Qed.

(** X11: every entry of the registry was put there by the
    [onsessioninitialized] callback of that very transport for that very id:
    whatever requests and callbacks the server has seen, an id resolves to
    transport [h] only if the callback of [h] has fired with this id. *)
Theorem registered_was_published (useOAuth : bool) (evs : list Event)
    (sid : string) (h : handle) :
  transports (run useOAuth init evs) !! sid = Some h →
  SessionInitialized h sid ∈ evs.
Proof.
  revert sid h. induction evs as [|ev evs IH] using rev_ind; intros sid h.
  { change (transports (run useOAuth init [])) with (∅ : gmap string nat).
    by rewrite lookup_empty. }
  rewrite run_snoc. intros Hreg. apply elem_of_app.
  destruct ev as [req connect hr|req hr|req hr|h' sid'|h'|h' streamId payload].
  - left. apply IH. cbn [step] in Hreg. by rewrite post_transports in Hreg.
  - left. apply IH. cbn [step] in Hreg. by rewrite get_transports in Hreg.
  - left. apply IH. cbn [step] in Hreg. by rewrite delete_transports in Hreg.
  - assert (Ht : transports (step useOAuth (run useOAuth init evs)
                               (SessionInitialized h' sid'))
                 = <[sid' := h']> (transports (run useOAuth init evs))).
    { cbn [step]. by destruct (heap _ !! h'). }
    rewrite Ht in Hreg. destruct (decide (sid' = sid)) as [->|Hne].
    + rewrite lookup_insert_eq in Hreg. injection Hreg as ->.
      right. apply list_elem_of_here.
    + rewrite lookup_insert_ne in Hreg by done. left. by apply IH.
  - left. apply IH. cbn [step] in Hreg. rewrite sdk_close_registry in Hreg.
    case_match; [|done]. by apply lookup_delete_Some in Hreg as [_ ?].
  - left. apply IH. cbn [step] in Hreg.
    by destruct (store_message_transports h' streamId payload
                   (run useOAuth init evs)) as [<- _].
Qed.

Lemma registered_was_published_witness :
  let evs :=
    [ Post {| mcp_session_id := None; last_event_id := None;
              req_body := "initialize"; isInitializeRequest := true;
              auth := None |} None
           {| aw_headersSent := true; aw_throws := None |};
      SessionInitialized 0 "s1" ] in
  SessionInitialized 0 "s1" ∈ evs.
Proof.
  intros evs. apply (registered_was_published false evs "s1" 0). reflexivity.
Defined.

(** *** What the SDK's contract adds *)

Lemma issued_true st sid h t :
  heap st !! h = Some t → sessionId t = Some sid → issued st sid = true.
Proof.
  intros Ht Hid. unfold issued. apply existsb_exists. exists t. split.
  - apply list_elem_of_In. by eapply list_elem_of_lookup_2.
  - by apply bool_decide_eq_true.
Qed.

(** One conforming event keeps a session registered unless it is the
    closing of that session's own transport. *)
Lemma step_keeps_session useOAuth st ev sid h :
  consistent st → sdk_ok st ev = true → closes_transport h ev = false →
  transports st !! sid = Some h →
  transports (step useOAuth st ev) !! sid = Some h.
Proof.
  intros Hcons Hok Hev Hreg.
  pose proof (registered_live st Hcons sid h Hreg) as Hlive.
  apply is_live_spec in Hlive as (t & Ht & Hid & Hopen).
  destruct ev as [req connect hr|req hr|req hr|h' sid'|h'|h' streamId payload];
    cbn [step].
  - by rewrite post_transports.
  - by rewrite get_transports.
  - by rewrite delete_transports.
  - assert (sid' ≠ sid) as Hne.
    { intros ->. simpl in Hok.
      apply andb_true_iff in Hok as [Hok _].
      apply andb_true_iff in Hok as [_ Hok].
      by rewrite (issued_true st sid h t Ht Hid) in Hok. }
    destruct (heap st !! h'); cbn [transports onsessioninitialized assign
      set_heap console_write]; by rewrite lookup_insert_ne.
  - simpl in Hev. apply bool_decide_eq_false in Hev.
    rewrite sdk_close_registry. case_match eqn:Hc; [|done].
    rewrite lookup_delete_ne; [done|]. intros Heq.
    destruct (heap st !! h') as [t'|] eqn:Ht'; [|done].
    simpl in Hc, Heq. destruct (sessionId t') as [sid'|] eqn:Hid'; [|done].
    simpl in Heq. subst sid'.
    apply Hev. by eapply (ids_unique st Hcons h' h t' t sid).
  - by destruct (store_message_transports h' streamId payload st) as [-> _].
Qed.

(** X12: a registered session stays registered, with the same transport,
    for as long as that transport does not close: no request, no other
    session being initialized and no other transport closing takes it out of
    the registry or redirects it, on a server whose session ids come from the
    SDK. *)
Theorem session_persists (useOAuth : bool) (evs1 evs2 : list Event)
    (sid : string) (h : handle) :
  sdk_trace useOAuth init (evs1 ++ evs2) = true →
  transports (run useOAuth init evs1) !! sid = Some h →
  forallb (λ ev, negb (closes_transport h ev)) evs2 = true →
  transports (run useOAuth init (evs1 ++ evs2)) !! sid = Some h ∧
  is_live (run useOAuth init (evs1 ++ evs2)) sid h = true.
Proof.
  intros Htr Hreg Hopen.
  rewrite sdk_trace_app in Htr. apply andb_true_iff in Htr as [Htr1 Htr2].
  assert (Hcons : consistent (run useOAuth init evs1)).
  { apply run_consistent; [done|apply consistent_init]. }
  rewrite run_app. revert Hcons Htr2 Hreg Hopen.
  generalize (run useOAuth init evs1).
  induction evs2 as [|ev evs2 IH]; intros st Hcons Htr2 Hreg Hopen.
  { split; [done|]. by apply (registered_live st Hcons). }
  simpl in Htr2, Hopen.
  apply andb_true_iff in Htr2 as [Hok Htr2].
  apply andb_true_iff in Hopen as [Hev Hopen]. apply negb_true_iff in Hev.
  cbn [run foldl]. apply IH; [by apply step_consistent|done| |done].
  by apply step_keeps_session.
Qed.

Lemma session_persists_witness :
  let init_req := {| mcp_session_id := None; last_event_id := None;
                     req_body := "initialize"; isInitializeRequest := true;
                     auth := None |} in
  let ok := {| aw_headersSent := true; aw_throws := None |} in
  let evs1 := [Post init_req None ok; SessionInitialized 0 "s1"] in
  let evs2 := [Post init_req None ok; SessionInitialized 1 "s2";
               TransportClosed 1; TransportClosed 1] in
  transports (run false init (evs1 ++ evs2)) !! "s1" = Some 0.
Proof.
  intros init_req ok evs1 evs2.
  destruct (session_persists false evs1 evs2 "s1" 0) as [H _];
    [reflexivity|reflexivity|reflexivity|exact H].
Defined.

Lemma step_complete useOAuth st ev :
  sdk_ok st ev = true → consistent st → complete st →
  complete (step useOAuth st ev).
Proof.
  intros Hok Hcons Hcomp h t sid Ht Hid Hopen.
  destruct ev as [req connect hr|req hr|req hr|h' sid'|h'|h' streamId payload].
  - cbn [step] in *. rewrite post_transports.
    destruct (post_heap useOAuth req connect hr st) as [Hh|Hh]; rewrite Hh in Ht.
    + by eapply Hcomp.
    + apply lookup_app_Some in Ht as [Ht|[_ Ht]]; [by eapply Hcomp|].
      apply list_lookup_singleton_Some in Ht as [_ <-]. done.
  - cbn [step] in *. rewrite get_transports. rewrite get_heap in Ht. by eapply Hcomp.
  - cbn [step] in *. rewrite delete_transports. rewrite delete_heap in Ht.
    by eapply Hcomp.
  - simpl in Hok. apply andb_true_iff in Hok as [Hok Hh'].
    apply andb_true_iff in Hok as [_ Hfresh]. apply negb_true_iff in Hfresh.
    cbn [step] in *. destruct (heap st !! h') as [t'|] eqn:Ht'; [|done].
    cbn [heap transports onsessioninitialized assign set_heap
         console_write] in *.
    assert (Hlt : h' < length (heap st)) by by eapply lookup_lt_Some.
    destruct (decide (h = h')) as [->|Hne].
    + rewrite list_lookup_insert_eq in Ht by done. injection Ht as <-.
      simpl in Hid. injection Hid as ->. apply lookup_insert_eq.
    + rewrite list_lookup_insert_ne in Ht by done.
      rewrite lookup_insert_ne; [by eapply Hcomp|].
      intros ->. by rewrite (issued_true st sid h t Ht Hid) in Hfresh.
  - simpl in Hok. apply bool_decide_eq_true in Hok as [t' Ht'].
    assert (h ≠ h') as Hne.
    { intros ->. cbn [step] in Ht. rewrite (sdk_close_closed h' st t' Ht') in Ht.
      injection Ht as <-. done. }
    assert (Hold : heap st !! h = Some t).
    { cbn [step] in Ht. destruct (sdk_close_heap h' st h) as [_ Hsame].
      by rewrite Hsame in Ht. }
    apply step_keeps_session; [done|by apply bool_decide_eq_true; eauto| |].
    + simpl. by apply bool_decide_eq_false.
    + by eapply Hcomp.
  - cbn [step] in *.
    destruct (store_message_transports h' streamId payload st) as [-> _].
    apply store_message_heap in Ht as (u & Hu & Hi & Hc).
    apply (Hcomp h u); congruence.
Qed.

Lemma run_complete useOAuth st evs :
  sdk_trace useOAuth st evs = true → consistent st → complete st →
  complete (run useOAuth st evs).
Proof.
  revert st. induction evs as [|ev evs IH]; intros st Htr Hcons Hcomp; [done|].
  simpl in *. apply andb_true_iff in Htr as [Hok Htr].
  apply IH; [done|by apply step_consistent|by apply step_complete].
Qed.

(** X13: no session is lost. On a server whose session ids come from the
    SDK, the registry holds exactly the open transports that have a session
    id: an id resolves to a transport if and only if that transport carries
    the id and has not closed. *)
Theorem registry_is_complete (useOAuth : bool) (evs : list Event)
    (sid : string) (h : handle) :
  sdk_trace useOAuth init evs = true →
  let st := run useOAuth init evs in
  transports st !! sid = Some h ↔ is_live st sid h = true.
Proof.
  intros Htr st. split.
  - apply registered_live. apply run_consistent; [done|apply consistent_init].
  - intros Hlive. apply is_live_spec in Hlive as (t & Ht & Hid & Hopen).
    eapply (run_complete useOAuth init evs); eauto using consistent_init.
    intros h0 t0 sid0 Hnil. change (heap init) with (@nil Transport) in Hnil.
    by rewrite lookup_nil in Hnil.
Qed.

Lemma registry_is_complete_witness :
  let init_req := {| mcp_session_id := None; last_event_id := None;
                     req_body := "initialize"; isInitializeRequest := true;
                     auth := None |} in
  let ok := {| aw_headersSent := true; aw_throws := None |} in
  let evs := [Post init_req None ok; Post init_req None ok;
              SessionInitialized 1 "s2"; SessionInitialized 0 "s1";
              TransportClosed 1] in
  transports (run false init evs) !! "s1" = Some 0.
Proof.
  intros init_req ok evs.
  apply (registry_is_complete false evs "s1" 0); reflexivity.
Defined.

(** *** startServer *)

(** X15: when a port was demanded through [MCP_PORT], or the port asked for
    is 0 already, a failed bind is final whatever the error: one attempt,
    after which the log holds the lines of the [app.listen] callback for the
    port asked for and then the error, and the process exits with status 1;
    no fall-back is tried. *)
Theorem startServer_never_falls_back (fuel : nat) (useOAuth : bool)
    (env_MCP_PORT : option string) (listen : Z → ListenResult)
    (port : Z) (code : string) (out : list LogLine) :
  truthy env_MCP_PORT = true ∨ port = 0%Z →
  listen port = ErrorEvent code →
  startServer (S fuel) useOAuth env_MCP_PORT listen port out
  = Some (Exited 1,
          out ++ listening useOAuth port ++
          [ {| level := ERROR; args := ["Failed to start server:"; code] |} ]).
Proof.
  intros Hfixed Hport. cbn [startServer]. rewrite Hport.
  destruct Hfixed as [-> | ->].
  - cbn [negb]. rewrite andb_false_r. cbn [andb]. by rewrite <- app_assoc.
  - rewrite andb_false_r. by rewrite <- app_assoc.
Qed.

Lemma startServer_never_falls_back_witness :
  startServer 1 false (Some "8080") (λ _, ErrorEvent "EADDRINUSE") 8080 []
  = Some (Exited 1,
          [ {| level := LOG;
               args := ["MCP Streamable HTTP Server listening on port 8080"] |};
            {| level := ERROR; args := ["Failed to start server:"; "EADDRINUSE"] |} ]).
Proof.
  apply (startServer_never_falls_back 0 false (Some "8080")
           (λ _, ErrorEvent "EADDRINUSE") 8080%Z "EADDRINUSE" []).
  - left. reflexivity.
  - reflexivity.
Defined.

(** X16: [startServer] calls itself at most once: two rounds always give
    its result and further rounds change nothing. The result keeps what was
    logged before and is either exit status 1 or serving on a port that a
    bind reported: the bind of the port asked for, or, after a fall-back, the
    bind of port 0. *)
Theorem startServer_two_rounds (fuel : nat) (useOAuth : bool)
    (env_MCP_PORT : option string) (listen : Z → ListenResult)
    (port : Z) (out : list LogLine) :
  startServer (S (S fuel)) useOAuth env_MCP_PORT listen port out
    = startServer 2 useOAuth env_MCP_PORT listen port out ∧
  ∃ p log,
    startServer 2 useOAuth env_MCP_PORT listen port out = Some (p, out ++ log) ∧
    (p = Exited 1 ∨
     ∃ a, p = Serving a ∧
          (listen port = Listening a ∨
           (listen 0%Z = Listening a ∧ port ≠ 0%Z ∧
            truthy env_MCP_PORT = false ∧ listen port = ErrorEvent "EADDRINUSE"))).
Proof.
  split.
  - cbn [startServer]. destruct (listen port) as [p|code]; [done|].
    case_match; [|done].
    destruct (listen 0%Z); [done|].
    by rewrite Z.eqb_refl, andb_false_r.
  - cbn [startServer]. destruct (listen port) as [a|code] eqn:Hport.
    + eexists (Serving a), _. split; [done|]. right. exists a. by eauto.
    + case_match eqn:Hc.
      * apply andb_true_iff in Hc as [Hc Hp]. apply negb_true_iff in Hp.
        apply Z.eqb_neq in Hp. apply andb_true_iff in Hc as [Hcode Henv].
        apply negb_true_iff in Henv. apply String.eqb_eq in Hcode. subst code.
        destruct (listen 0%Z) as [a|code0] eqn:Hzero.
        -- eexists (Serving a), _. split; [by rewrite <- !app_assoc|].
           right. exists a. split; [done|]. right. done.
        -- rewrite Z.eqb_refl, andb_false_r.
           eexists (Exited 1), _. split; [by rewrite <- !app_assoc|]. by left.
      * eexists (Exited 1), _. split; [by rewrite <- !app_assoc|]. by left.
Qed.

(** *** SIGINT: when it exits and what it leaves *)

Lemma consistent_unregister k st :
  consistent st → consistent (remove k st).
Proof.
  intros [H1 H2 H3 H4]. split; [|done|done|done].
  intros sid h Hl. cbn [transports remove] in Hl.
  apply lookup_delete_Some in Hl as [_ Hl]. by apply H1.
Qed.

Lemma registered_nonempty st k h :
  consistent st → transports st !! k = Some h →
  k ≠ "" ∧ heap st !! h ≫= sessionId = Some k.
Proof.
  intros Hcons Hreg. pose proof (registered_live st Hcons k h Hreg) as Hlive.
  apply is_live_spec in Hlive as (t & Ht & Hid & _). split.
  - intros ->. by eapply (ids_nonempty st Hcons).
  - by rewrite Ht.
Qed.

(** Closing the transport of a registered session removes exactly its
    entry. *)
Lemma sdk_close_unregisters st k h :
  consistent st → transports st !! k = Some h →
  transports (sdk_close h st) = delete k (transports st).
Proof.
  intros Hcons Hreg. destruct (registered_nonempty st k h Hcons Hreg) as [Hne Hkey].
  rewrite sdk_close_registry, Hkey. change (str (Some k)) with k.
  by rewrite (truthy_nonempty k Hne).
Qed.

Lemma closeAll_result close (kvs : list (string * nat)) :
  NoDup kvs.*1 →
  ∀ calls st,
    consistent st →
    (∀ k h, (k, h) ∈ kvs → transports st !! k = Some h) →
    ∃ st' calls' completed,
      closeAll close kvs.*1 calls st = (st', calls', completed) ∧
      (completed = true ↔ ∀ k h, (k, h) ∈ kvs → cl_settle (close h) ≠ Pending) ∧
      (completed = true →
         (∀ k, k ∉ kvs.*1 → transports st' !! k = transports st !! k) ∧
         (∀ k h, (k, h) ∈ kvs →
            transports st' !! k = if unclosed close h then Some h else None)).
Proof.
  induction kvs as [|[k h] kvs IH]; intros Hnd calls st Hcons Hreg.
  { exists st, calls, true. split; [done|]. split.
    - split; [|done]. intros _ k h Hin. by apply elem_of_nil in Hin.
    - intros _. split; [done|]. intros k h Hin. by apply elem_of_nil in Hin. }
  apply NoDup_cons in Hnd as [Hk Hnd]. cbn [fmap list_fmap fst closeAll].
  assert (Hkh : transports st !! k = Some h) by (apply Hreg; apply list_elem_of_here).
  rewrite Hkh.
  set (st1 := console_write LOG ["Closing transport for session " +:+ k] st).
  set (st2 := if cl_closes (close h) then sdk_close h st1 else st1).
  assert (Hcons1 : consistent st1) by (by apply (consistent_same st)).
  assert (Hcons2 : consistent st2).
  { subst st2. destruct (cl_closes (close h)); [|done].
    apply (consistent_closed false st1 h Hcons1). }
  assert (Ht2 : transports st2
                = if cl_closes (close h) then delete k (transports st)
                  else transports st).
  { subst st2. destruct (cl_closes (close h)); [|done].
    by rewrite (sdk_close_unregisters st1 k h Hcons1). }
  assert (Hrest : ∀ k' h', (k', h') ∈ kvs → k' ≠ k).
  { intros k' h' Hin ->. apply Hk. apply list_elem_of_fmap. by exists (k, h'). }
  assert (Hcont : ∀ st3,
    consistent st3 →
    (∀ k', k' ≠ k → transports st3 !! k' = transports st !! k') →
    transports st3 !! k = (if unclosed close h then Some h else None) →
    cl_settle (close h) ≠ Pending →
    ∃ st' calls' completed,
      closeAll close kvs.*1 (calls ++ [Close h]) st3 = (st', calls', completed) ∧
      (completed = true ↔
         ∀ k0 h0, (k0, h0) ∈ (k, h) :: kvs → cl_settle (close h0) ≠ Pending) ∧
      (completed = true →
         (∀ k0, k0 ∉ k :: kvs.*1 → transports st' !! k0 = transports st !! k0) ∧
         (∀ k0 h0, (k0, h0) ∈ (k, h) :: kvs →
            transports st' !! k0 = if unclosed close h0 then Some h0 else None))).
  { intros st3 Hcons3 Hother Hown Hsettled.
    destruct (IH Hnd (calls ++ [Close h]) st3 Hcons3)
      as (st' & calls' & completed & Heq & Hiff & Hleft).
    { intros k' h' Hin. rewrite Hother by by eapply Hrest.
      apply Hreg. by apply list_elem_of_further. }
    exists st', calls', completed. split; [done|]. split.
    - rewrite Hiff. split.
      + intros H k0 h0 Hin. apply elem_of_cons in Hin as [[= -> ->]|Hin]; eauto.
      + intros H k0 h0 Hin. apply (H k0 h0). by apply list_elem_of_further.
    - intros Hdone. destruct (Hleft Hdone) as [Hout Hin]. split.
      + intros k0 Hk0. apply not_elem_of_cons in Hk0 as [Hk0 Hk0'].
        rewrite Hout by done. by apply Hother.
      + intros k0 h0 Hin0. apply elem_of_cons in Hin0 as [[= -> ->]|Hin0].
        * rewrite Hout by done. done.
        * by apply Hin. }
  destruct (cl_settle (close h)) as [|e|] eqn:Hs.
  - apply Hcont; [by apply consistent_unregister| | |done].
    + intros k' Hne. cbn [transports remove]. rewrite Ht2.
      destruct (cl_closes (close h)); by rewrite ?lookup_delete_ne.
    + cbn [transports remove]. rewrite lookup_delete_eq.
      unfold unclosed. by rewrite Hs, andb_false_r.
  - apply Hcont; [by apply (consistent_same st2)| | |done].
    + intros k' Hne. cbn [transports console_write]. rewrite Ht2.
      destruct (cl_closes (close h)); by rewrite ?lookup_delete_ne.
    + cbn [transports console_write]. rewrite Ht2. unfold unclosed. rewrite Hs.
      destruct (cl_closes (close h)); cbn; by rewrite ?lookup_delete_eq.
  - exists st2, (calls ++ [Close h]), false. split; [done|]. split; [|done].
    split; [done|]. intros H. exfalso. apply (H k h); [apply list_elem_of_here|done].
Qed.

Lemma settle_cases (close : nat → CloseResult) (l : list (string * nat)) :
  (∀ kv, kv ∈ l → cl_settle (close kv.2) ≠ Pending) ∨
  (∃ kv, kv ∈ l ∧ cl_settle (close kv.2) = Pending).
Proof.
  induction l as [|kv l [IH|(kv' & Hin & Hp)]].
  - left. intros kv Hin. by apply elem_of_nil in Hin.
  - destruct (cl_settle (close kv.2)) eqn:Hs.
    + left. intros kv' Hin. apply elem_of_cons in Hin as [->|Hin]; [by rewrite Hs|eauto].
    + left. intros kv' Hin. apply elem_of_cons in Hin as [->|Hin]; [by rewrite Hs|eauto].
    + right. exists kv. split; [apply list_elem_of_here|done].
  - right. exists kv'. split; [by apply list_elem_of_further|done].
Qed.

Lemma sigint_result useOAuth evs close :
  sdk_trace useOAuth init evs = true →
  let st := run useOAuth init evs in
  ∃ st' calls (completed : bool),
    sigint close st =
      (if completed
       then {| sd_state := console_write LOG ["Server shutdown complete"] st';
               sd_calls := calls; sd_exit := Some 0%Z |}
       else {| sd_state := st'; sd_calls := calls; sd_exit := None |}) ∧
    (completed = true ↔
       ∀ sid h, transports st !! sid = Some h → cl_settle (close h) ≠ Pending) ∧
    (completed = true →
       ∀ sid, transports st' !! sid =
              transports st !! sid ≫= λ h, if unclosed close h then Some h else None).
Proof.
  intros Htr st.
  assert (Hcons : consistent st).
  { apply run_consistent; [done|apply consistent_init]. }
  destruct (for_in_entries st) as (kvs & _ & Hfst & Hnd & Hkvs & _).
  { apply keys_ok_run, keys_ok_init. }
  unfold sigint.
  set (st0 := console_write LOG ["Shutting down server..."] st).
  change (keys st0) with (keys st). rewrite <- Hfst.
  destruct (closeAll_result close kvs Hnd [] st0)
    as (st' & calls & completed & Heq & Hiff & Hleft).
  { by apply (consistent_same st). }
  { intros k h Hin. by apply Hkvs. }
  exists st', calls, completed. rewrite Heq. split; [done|]. split.
  - rewrite Hiff. split.
    + intros H sid h Hreg. apply (H sid h). by apply Hkvs.
    + intros H k h Hin. apply (H k h). by apply Hkvs.
  - intros Hdone sid. destruct (Hleft Hdone) as [Hout Hin].
    destruct (transports st !! sid) as [h|] eqn:Hreg; cbn [mbind option_bind].
    + apply Hin. by apply Hkvs.
    + rewrite Hout; [done|]. intros Hk.
      apply list_elem_of_fmap in Hk as ([k h] & -> & Hk).
      apply Hkvs in Hk. cbn in Hreg. congruence.
Qed.

(** X17: the SIGINT handler reaches [process.exit] exactly when the
    [close()] of every registered session settles; it then exits with status
    0. A single registered session whose [close()] never settles keeps the
    process from exiting, and the handler never exits with another status. *)
Theorem sigint_exits_iff (useOAuth : bool) (evs : list Event)
    (close : handle → CloseResult) :
  sdk_trace useOAuth init evs = true →
  let st := run useOAuth init evs in
  let r := sigint close st in
  (sd_exit r = Some 0%Z ↔
     ∀ sid h, transports st !! sid = Some h → cl_settle (close h) ≠ Pending) ∧
  (sd_exit r = None ↔
     ∃ sid h, transports st !! sid = Some h ∧ cl_settle (close h) = Pending).
Proof.
  intros Htr st r.
  destruct (sigint_result useOAuth evs close Htr)
    as (st' & calls & completed & Heq & Hiff & _).
  fold st in Heq, Hiff. subst r. rewrite Heq.
  assert (Hex : (∃ sid h, transports st !! sid = Some h ∧ cl_settle (close h) = Pending)
                ↔ ¬ ∀ sid h, transports st !! sid = Some h → cl_settle (close h) ≠ Pending).
  { split.
    - intros (sid & h & Hreg & Hp) H. by apply (H sid h).
    - intros Hnot. rewrite <- Hiff in Hnot.
      destruct completed; [done|].
      destruct (settle_cases close (map_to_list (transports st)))
        as [Hall|([sid h] & Hin & Hp)].
      + assert (false = true); [|done]. apply Hiff.
        intros sid h Hreg. apply (Hall (sid, h)). by apply elem_of_map_to_list.
      + exists sid, h. split; [by apply elem_of_map_to_list|done]. }
  rewrite Hex, <- Hiff. clear.
  destruct completed; cbn; split; split;
    first [done | discriminate | intros H; by destruct H].
Qed.

Lemma sigint_exits_iff_witness :
  let init_req := {| mcp_session_id := None; last_event_id := None;
                     req_body := "initialize"; isInitializeRequest := true;
                     auth := None |} in
  let ok := {| aw_headersSent := true; aw_throws := None |} in
  let evs := [Post init_req None ok; SessionInitialized 0 "s1";
              Post init_req None ok] in
  let close := λ h : handle,
    if (h =? 0)%nat then {| cl_closes := true; cl_settle := Rejected "late" |}
    else {| cl_closes := false; cl_settle := Pending |} in
  sd_exit (sigint close (run false init evs)) = Some 0%Z.
Proof.
  intros init_req ok evs close.
  destruct (sigint_exits_iff false evs close) as [[_ H] _]; [reflexivity|].
  apply H. intros sid h Hreg.
  assert (Hl : map_to_list (transports (run false init evs)) = [("s1", 0)])
    by (by vm_compute).
  apply elem_of_map_to_list in Hreg. rewrite Hl in Hreg.
  apply list_elem_of_singleton in Hreg. injection Hreg as -> ->. done.
Defined.

(** X18: what a completed shutdown leaves in the registry. When every
    registered [close()] settles, the sessions still registered at exit are
    exactly those whose [close()] rejected without the transport closing: a
    fulfilled close is followed by the [delete], a closing transport removes
    itself through [onclose], and a rejection skips the [delete]. If every
    close fulfils, the registry is empty. *)
Theorem sigint_leaves_failed_sessions (useOAuth : bool) (evs : list Event)
    (close : handle → CloseResult) :
  sdk_trace useOAuth init evs = true →
  let st := run useOAuth init evs in
  let r := sigint close st in
  (∀ sid h, transports st !! sid = Some h → cl_settle (close h) ≠ Pending) →
  (∀ sid, transports (sd_state r) !! sid =
          transports st !! sid ≫= λ h, if unclosed close h then Some h else None) ∧
  ((∀ sid h, transports st !! sid = Some h → cl_settle (close h) = Fulfilled) →
   transports (sd_state r) = ∅).
Proof.
  intros Htr st r Hsettle.
  destruct (sigint_result useOAuth evs close Htr)
    as (st' & calls & completed & Heq & Hiff & Hleft).
  fold st in Heq, Hiff, Hleft. subst r. rewrite Heq.
  apply Hiff in Hsettle. subst completed. cbn [sd_state transports console_write].
  specialize (Hleft eq_refl). split; [done|].
  intros Hall. apply map_eq. intros sid. rewrite Hleft, lookup_empty.
  destruct (transports st !! sid) as [h|] eqn:Hreg; [|done].
  cbn. unfold unclosed. by rewrite (Hall sid h Hreg), andb_false_r.
Qed.

Lemma sigint_leaves_failed_sessions_witness :
  let init_req := {| mcp_session_id := None; last_event_id := None;
                     req_body := "initialize"; isInitializeRequest := true;
                     auth := None |} in
  let ok := {| aw_headersSent := true; aw_throws := None |} in
  let evs := [Post init_req None ok; SessionInitialized 0 "s1";
              Post init_req None ok; SessionInitialized 1 "s2"] in
  let close := λ h : handle,
    if (h =? 0)%nat then {| cl_closes := false; cl_settle := Rejected "busy" |}
    else {| cl_closes := true; cl_settle := Rejected "late" |} in
  transports (sd_state (sigint close (run false init evs))) !! "s1" = Some 0 ∧
  transports (sd_state (sigint close (run false init evs))) !! "s2" = None.
Proof.
  intros init_req ok evs close.
  destruct (sigint_leaves_failed_sessions false evs close) as [H _].
  - reflexivity.
  - intros sid h _. unfold close. by destruct (h =? 0)%nat.
  - split; rewrite H; reflexivity.
Defined.




(** X19: with no session registered the SIGINT handler closes nothing and
    exits at once with status 0, whatever [close()] would do. *)
Theorem sigint_without_sessions (close : handle → CloseResult) (st : State) :
  transports st = ∅ →
  sigint close st =
  {| sd_state :=
       console_write LOG ["Server shutdown complete"]
         (console_write LOG ["Shutting down server..."] st);
     sd_calls := []; sd_exit := Some 0%Z |}.
Proof.
  intros Hempty. unfold sigint.
  set (st0 := console_write LOG ["Shutting down server..."] st).
  assert (Hskip : ∀ ks calls, closeAll close ks calls st0 = (st0, calls, true)).
  { induction ks as [|k ks IH]; intros calls; [done|]. cbn [closeAll].
    change (transports st0) with (transports st).
    by rewrite Hempty, lookup_empty. }
  by rewrite Hskip.
Qed.

Lemma sigint_without_sessions_witness :
  sd_exit (sigint (λ _, {| cl_closes := false; cl_settle := Pending |}) init)
  = Some 0%Z.
Proof.
  by rewrite (sigint_without_sessions _ init eq_refl).
Defined.

(** X20: start-up with the configured port. With [MCP_PORT] unset or empty
    the port asked for is 3000, whatever [parseInt] would give, and a start
    that finds 3000 occupied serves on the ephemeral port the bind of port 0
    reports; with [MCP_PORT] set the port asked for is its parsed value and a
    bind error on it ends the process with status 1. *)
Theorem start_with_configured_port (fuel : nat) (useOAuth : bool)
    (parseInt : string → Z) (env_MCP_PORT : option string)
    (listen : Z → ListenResult) :
  let port := MCP_PORT parseInt env_MCP_PORT in
  let result := fst <$> startServer (S (S fuel)) useOAuth env_MCP_PORT listen port [] in
  if truthy env_MCP_PORT
  then port = parseInt (str env_MCP_PORT) ∧
       ∀ code, listen port = ErrorEvent code → result = Some (Exited 1)
  else port = 3000%Z ∧
       ∀ a, listen 3000%Z = ErrorEvent "EADDRINUSE" → listen 0%Z = Listening a →
            result = Some (Serving a).
Proof.
  intros port result. subst port result. unfold MCP_PORT.
  destruct (truthy env_MCP_PORT) eqn:Henv.
  - split; [done|]. intros code Hport.
    cbn [startServer]. rewrite Hport, Henv. by rewrite andb_false_r.
  - split; [done|]. intros a Hport Hzero.
    cbn [startServer]. rewrite Hport, Henv, Hzero. cbn.
    by destruct useOAuth.
Qed.

End ServerMore.
